(** * Millikan oil-drop simulator: the physics integrator of [main.js]

    A shallow embedding of the numerical core of [src/main.js]
    ([computeSlipCorrection], [recomputeDropCoefficients],
    [computeElectricField], [integrateStep], [update]) and of the main loop
    of [src/dev/physics-smoke-test.js].

    Numbers.  A JavaScript number is modelled as a real number of the
    Standard Library: [Math.sqrt], [Math.exp] and [Math.PI] are [sqrt],
    [exp] and [PI], and the arithmetic of the physics is exact.  The frame
    driver is the exception.  How many times the loop of [update] runs, and
    what its sub-steps add up to, is decided by the rounding of
    [remaining -= stepDt] and of the two constants [1 / 1800] and [1 / 20],
    so there the result of the operation is rounded to binary64 by
    [round64].  To run the loop on concrete frame durations, the durations
    of the sub-steps are also computed on integers, in units of [2^-63] s
    ([substepUnits]), and with the primitive binary64 numbers of Rocq
    ([updateDurations_f64]).  The one place where the code receives
    a value that may be non-finite, the frame duration given to [update],
    has the type [JsNumber], which adds the two infinities and NaN.

    Effects.  The globals [state] and [drop] are the records [State] and
    [Drop], passed explicitly.  [gaussianRandom()] is the only source of
    non-determinism: the sample it returns is an argument of [integrateStep]
    and a stream of samples is an argument of the loops.  The trail and the
    history buffer (rendering) are left out. *)

From Stdlib Require Import Floats QArith.
From Stdlib Require Import Reals Lra Lia List Bool.
Import ListNotations.
Open Scope R_scope.

(** ** Numbers *)

Inductive JsNumber : Type :=
| Finite (x : R)
| PosInfinity
| NegInfinity
| NaN.

Definition Number_isFinite (n : JsNumber) : bool :=
  match n with
  | Finite _ => true
  | _ => false
  end.

(** [Math.pow(x, n)] for a natural exponent. *)
Definition Math_pow (x : R) (n : nat) : R := x ^ n.

(** ** Rounding to binary64

    The integer nearest to [x]; of two equally near, the even one. *)
Definition nearestEven (x : R) : Z :=
  let n := Zfloor x in
  if Rlt_dec (x - IZR n) (1 / 2) then n
  else if Rlt_dec (1 / 2) (x - IZR n) then (n + 1)%Z
  else if Z.even n then n else (n + 1)%Z.

(** The exponent of the unit in the last place of the doubles around [x]:
    53 significant bits, so 52 below the exponent of [x], and [-1074] for
    the subnormal numbers. *)
Definition ulpExponent (x : R) : Z :=
  Z.max (Zfloor (ln (Rabs x) / ln 2) - 52) (-1074).

(** The double nearest to [x], ties to even: what every arithmetic
    operation of JavaScript returns for the exact result [x].  Overflow is
    left out: a result of magnitude [2^1024] or more is rounded like the
    others, where JavaScript gives an infinity. *)
Definition round64 (x : R) : R :=
  if Req_dec_T x 0 then 0
  else IZR (nearestEven (x * powerRZ 2 (- ulpExponent x)))
       * powerRZ 2 (ulpExponent x).

(** [2^-58]: half a unit in the last place of the doubles between [1/32]
    and [1/16], the largest rounding error of a result below [1/16]. *)
Definition HALF_ULP : R := / 288230376151711744.

(** [function clamp(v, a, b) { return Math.min(Math.max(v, a), b); }] *)
Definition clamp (v a b : R) : R := Rmin (Rmax v a) b.

(** ** Constants of [main.js] *)

Definition ELECTRON_CHARGE : R := 1.602e-19.
Definition OIL_DENSITY : R := 860.
Definition AIR_DENSITY : R := 1.2.
Definition BOLTZMANN : R := 1.380649e-23.
Definition AIR_MEAN_FREE_PATH : R := 65e-9.
Definition CUNNINGHAM_A : R := 1.257.
Definition CUNNINGHAM_B : R := 0.4.
Definition CUNNINGHAM_C : R := 1.1.

Definition MAX_FRAME_DT : R := 1 / 20.
Definition SUBSTEP_DT : R := 1 / 1800.
Definition BASE_MAX_SPEED : R := 0.12.
Definition BOUNCE_DAMPING : R := 0.3.

(** ** The two global objects *)

(** [state], without the rendering flags [showTrail] and [showGrid]. *)
Record State : Type := mkState {
  running : bool;
  voltageKV : R;
  plateGapMeters : R;
  radiusMicrons : R;
  viscosity : R;
  temperatureK : R;
  noiseBoost : R;
  fieldEnabled : bool;
  gravity : R;
  pulseTimer : R;
  fieldPolarity : R
}.

Record Drop : Type := mkDrop {
  y : R;
  velocity : R;
  chargeMultiple : Z;
  chargeCoulombs : R;
  radiusMeters : R;
  mass : R;
  slipFactor : R;
  dragCoeff : R
}.

(** The initial values of the two objects in [main.js]. *)
Definition state0 : State :=
  {| running := true; voltageKV := 2.0; plateGapMeters := 0.005;
     radiusMicrons := 0.9; viscosity := 1.8e-5; temperatureK := 295;
     noiseBoost := 1; fieldEnabled := true; gravity := 9.81;
     pulseTimer := 0; fieldPolarity := 1 |}.

Definition drop0 : Drop :=
  {| y := 0.005 * 0.35; velocity := 0; chargeMultiple := (-8)%Z;
     chargeCoulombs := -8 * ELECTRON_CHARGE; radiusMeters := 0.9e-6;
     mass := 0; slipFactor := 1; dragCoeff := 0 |}.

(** ** Coefficient model *)

Definition computeSlipCorrection (radius : R) : R :=
  let r := Rmax radius 5e-9 in
  let kn := AIR_MEAN_FREE_PATH / r in
  1 + kn * (CUNNINGHAM_A + CUNNINGHAM_B * exp (- CUNNINGHAM_C / kn)).

Definition recomputeDropCoefficients (st : State) (d : Drop) : Drop :=
  let radius := radiusMicrons st * 1e-6 in
  let volume := (4 / 3) * PI * Math_pow radius 3 in
  let effDensity := Rmax (OIL_DENSITY - AIR_DENSITY) 1 in
  let mass' := Rmax (volume * effDensity) 1e-20 in
  let slip := computeSlipCorrection radius in
  {| y := y d; velocity := velocity d;
     chargeMultiple := chargeMultiple d; chargeCoulombs := chargeCoulombs d;
     radiusMeters := radius;
     mass := mass';
     slipFactor := slip;
     dragCoeff := (6 * PI * viscosity st * radius) / slip |}.

Definition computeElectricField (st : State) : R :=
  if negb (fieldEnabled st) then 0
  else
    let gap := Rmax (plateGapMeters st) 1e-5 in
    (voltageKV st * 1000 * fieldPolarity st) / gap.

(** ** Step integrator *)

Definition setVelocity (d : Drop) (v : R) : Drop :=
  {| y := y d; velocity := v;
     chargeMultiple := chargeMultiple d; chargeCoulombs := chargeCoulombs d;
     radiusMeters := radiusMeters d; mass := mass d;
     slipFactor := slipFactor d; dragCoeff := dragCoeff d |}.

Definition setY (d : Drop) (pos : R) : Drop :=
  {| y := pos; velocity := velocity d;
     chargeMultiple := chargeMultiple d; chargeCoulombs := chargeCoulombs d;
     radiusMeters := radiusMeters d; mass := mass d;
     slipFactor := slipFactor d; dragCoeff := dragCoeff d |}.

(** [integrateStep(dt, E)], statement by statement; [sample] is the value
    returned by the call of [gaussianRandom()].  The drag coefficient of a
    [Drop] is a real, so [!Number.isFinite(drop.dragCoeff)] is never true
    and the guard of the recomputation is [drop.dragCoeff <= 0].  Each
    assignment to a field of [drop] rebinds [d]. *)
Definition integrateStep (dt E sample : R) (st : State) (d : Drop) : Drop :=
  let gravityForce := mass d * gravity st in
  let electricForce := chargeCoulombs d * E in
  let d := if Rle_dec (dragCoeff d) 0 then recomputeDropCoefficients st d else d in
  let dragCoeff' := dragCoeff d in
  let dragForce := - dragCoeff' * velocity d in
  let noiseStd :=
    0.6 * sqrt ((2 * BOLTZMANN * temperatureK st * dragCoeff') / Rmax dt 1e-6) in
  let noiseForce := noiseBoost st * noiseStd * sample in
  let netForce := gravityForce + electricForce + dragForce + noiseForce in
  let accel := netForce / mass d in
  let d := setVelocity d (velocity d + accel * dt) in
  let deterministicNet := gravityForce + electricForce in
  let vtAnalytic :=
    if Rlt_dec 0 dragCoeff' then deterministicNet / dragCoeff' else 0 in
  let dynamicCap := Rmax (2 * Rabs vtAnalytic) 0.02 in
  let speedCap := Rmax dynamicCap (BASE_MAX_SPEED * 0.25) in
  let d := setVelocity d (clamp (velocity d) (- speedCap) speedCap) in
  let d := setY d (y d + velocity d * dt) in
  let d :=
    if Rlt_dec (y d) 0
    then setVelocity (setY d 0) (velocity d * - BOUNCE_DAMPING) else d in
  let maxY := plateGapMeters st in
  let d :=
    if Rlt_dec maxY (y d)
    then setVelocity (setY d maxY) (velocity d * - BOUNCE_DAMPING) else d in
  d.

(** *** The intermediate values of a step, by name

    The same expressions as in [integrateStep], as functions of the inputs
    of the call, for use in statements; [integrateStep_stages] ties them to
    the function. *)

Definition refreshed (st : State) (d : Drop) : Drop :=
  if Rle_dec (dragCoeff d) 0 then recomputeDropCoefficients st d else d.

Definition gravityForce (st : State) (d : Drop) : R := mass d * gravity st.

Definition electricForce (E : R) (d : Drop) : R := chargeCoulombs d * E.

Definition noiseStd (dt : R) (st : State) (d : Drop) : R :=
  0.6 * sqrt ((2 * BOLTZMANN * temperatureK st * dragCoeff (refreshed st d))
              / Rmax dt 1e-6).

Definition noiseForce (dt sample : R) (st : State) (d : Drop) : R :=
  noiseBoost st * noiseStd dt st d * sample.

Definition netForce (dt E sample : R) (st : State) (d : Drop) : R :=
  gravityForce st d + electricForce E d
  + - dragCoeff (refreshed st d) * velocity (refreshed st d)
  + noiseForce dt sample st d.

Definition eulerVelocity (dt E sample : R) (st : State) (d : Drop) : R :=
  velocity (refreshed st d)
  + netForce dt E sample st d / mass (refreshed st d) * dt.

Definition vtAnalytic (E : R) (st : State) (d : Drop) : R :=
  if Rlt_dec 0 (dragCoeff (refreshed st d))
  then (gravityForce st d + electricForce E d) / dragCoeff (refreshed st d)
  else 0.

Definition speedCap (E : R) (st : State) (d : Drop) : R :=
  Rmax (Rmax (2 * Rabs (vtAnalytic E st d)) 0.02) (BASE_MAX_SPEED * 0.25).

Definition cappedVelocity (dt E sample : R) (st : State) (d : Drop) : R :=
  clamp (eulerVelocity dt E sample st d) (- speedCap E st d) (speedCap E st d).

(** The position after [drop.y += drop.velocity * dt], before the two
    boundary tests. *)
Definition movedY (dt E sample : R) (st : State) (d : Drop) : R :=
  y (refreshed st d) + cappedVelocity dt E sample st d * dt.

(** The drop as it enters the two boundary tests. *)
Definition moved (dt E sample : R) (st : State) (d : Drop) : Drop :=
  setY (setVelocity (refreshed st d) (cappedVelocity dt E sample st d))
       (movedY dt E sample st d).

Definition bounceLower (d : Drop) : Drop :=
  if Rlt_dec (y d) 0
  then setVelocity (setY d 0) (velocity d * - BOUNCE_DAMPING) else d.

Definition bounceUpper (maxY : R) (d : Drop) : Drop :=
  if Rlt_dec maxY (y d)
  then setVelocity (setY d maxY) (velocity d * - BOUNCE_DAMPING) else d.

(** ** Frame driver *)

(** One call of [integrateStep] made by [update]: the remaining frame time
    when the iteration starts, the arguments of the call, the [state] the
    call reads and the Gaussian sample it draws. *)
Record Call : Type := mkCall {
  call_remaining : R;
  call_dt : R;
  call_E : R;
  call_state : State;
  call_sample : R
}.

Definition setPulseTimer (st : State) (t : R) : State :=
  {| running := running st; voltageKV := voltageKV st;
     plateGapMeters := plateGapMeters st; radiusMicrons := radiusMicrons st;
     viscosity := viscosity st; temperatureK := temperatureK st;
     noiseBoost := noiseBoost st; fieldEnabled := fieldEnabled st;
     gravity := gravity st; pulseTimer := t;
     fieldPolarity := fieldPolarity st |}.

Definition setFieldPolarity (st : State) (p : R) : State :=
  {| running := running st; voltageKV := voltageKV st;
     plateGapMeters := plateGapMeters st; radiusMicrons := radiusMicrons st;
     viscosity := viscosity st; temperatureK := temperatureK st;
     noiseBoost := noiseBoost st; fieldEnabled := fieldEnabled st;
     gravity := gravity st; pulseTimer := pulseTimer st;
     fieldPolarity := p |}.

(** What [update] leaves behind: the two objects, the value it returns
    (the field), the local [remaining], and the calls of [integrateStep] it
    made, first call first. *)
Record Outcome : Type := mkOutcome {
  out_state : State;
  out_drop : Drop;
  out_E : R;
  out_remaining : R;
  out_calls : list Call
}.

(** The lines of the body of the [while] loop before [integrateStep].  The
    pulse timer is kept as a real number, like the quantities of the
    physics. *)
Definition tickPulse (stepDt : R) (st : State) : State :=
  let st := setPulseTimer st (Rmax 0 (pulseTimer st - stepDt)) in
  if Req_dec_T (pulseTimer st) 0
  then (if Req_dec_T (fieldPolarity st) 1 then st else setFieldPolarity st 1)
  else st.

(** [SUBSTEP_DT] and [MAX_FRAME_DT] as [update] has them: the constants are
    the results of the divisions [1 / 1800] and [1 / 20], so they are the
    doubles nearest to the two quotients. *)
Definition SUBSTEP_DT64 : R := round64 SUBSTEP_DT.
Definition MAX_FRAME_DT64 : R := round64 MAX_FRAME_DT.

(** [while (remaining > 0) { ... }].  [fuel] bounds the number of
    iterations; [None] means the bound was reached with [remaining > 0].
    [noise n] is the sample drawn by the [n]-th call from here.
    [Math.min] returns one of its arguments and is exact;
    [remaining -= stepDt] is a subtraction and is rounded. *)
Fixpoint substepLoop (fuel : nat) (noise : nat -> R) (remaining : R)
    (st : State) (d : Drop) (E : R) : option Outcome :=
  if Rlt_dec 0 remaining then
    match fuel with
    | O => None
    | S fuel' =>
        let stepDt := Rmin remaining SUBSTEP_DT64 in
        let st' := tickPulse stepDt st in
        let E' := computeElectricField st' in
        let d' := integrateStep stepDt E' (noise O) st' d in
        match substepLoop fuel' (fun n => noise (S n))
                          (round64 (remaining - stepDt)) st' d' E' with
        | Some o =>
            Some (mkOutcome (out_state o) (out_drop o) (out_E o)
                    (out_remaining o)
                    (mkCall remaining stepDt E' st' (noise O) :: out_calls o))
        | None => None
        end
    end
  else Some (mkOutcome st d E remaining []).

(** [const safeDt = Number.isFinite(dt) ? Math.max(0, dt) : 0;] *)
Definition safeDtOf (dt : JsNumber) : R :=
  match dt with
  | Finite x => Rmax 0 x
  | PosInfinity | NegInfinity | NaN => 0
  end.

(** [update(dt)]; the calls of [advanceTrail] are left out.  Where the
    function returns before [remaining] is declared, 0 is recorded for it. *)
Definition update (fuel : nat) (noise : nat -> R) (dt : JsNumber)
    (st : State) (d : Drop) : option Outcome :=
  let safeDt := safeDtOf dt in
  let E := computeElectricField st in
  if negb (running st) then Some (mkOutcome st d E 0 [])
  else
    let remaining := Rmin safeDt MAX_FRAME_DT64 in
    if Req_dec_T remaining 0 then Some (mkOutcome st d E remaining [])
    else substepLoop fuel noise remaining st d E.

(** ** The durations of the sub-steps in units of [2^-63] s

    [SUBSTEP_DT] is [5124095576030431 * 2^-63] s and [MAX_FRAME_DT] is
    [461168601842738816 * 2^-63] s, and every value [remaining] takes in a
    frame that starts from a whole number of units is a whole number of
    units again, so such a frame can be run on integers.  [roundUnits n] is
    [n] rounded to 53 significant bits, ties to even. *)
Definition fromUnits (n : Z) : R := IZR n / 2 ^ 63.

Definition SUBSTEP_UNITS : Z := 5124095576030431.
Definition MAX_FRAME_UNITS : Z := 461168601842738816.

Definition roundUnits (n : Z) : Z :=
  let t := (Z.log2 n - 52)%Z in
  if (t <=? 0)%Z then n
  else
    let q := (n / 2 ^ t)%Z in
    let r := (n mod 2 ^ t)%Z in
    let half := (2 ^ (t - 1))%Z in
    let m := if (r <? half)%Z then q
             else if (half <? r)%Z then (q + 1)%Z
             else if Z.even q then q else (q + 1)%Z in
    (m * 2 ^ t)%Z.

Fixpoint substepUnits (fuel : nat) (remaining : Z) : option (list Z) :=
  if (0 <? remaining)%Z then
    match fuel with
    | O => None
    | S fuel' =>
        let stepDt := Z.min remaining SUBSTEP_UNITS in
        match substepUnits fuel' (roundUnits (remaining - stepDt)) with
        | Some l => Some (stepDt :: l)
        | None => None
        end
    end
  else Some [].

(** ** The durations of the sub-steps in primitive binary64

    The same loop on the binary64 numbers of Rocq, keeping only what decides
    the durations: [remaining], [stepDt] and the two constants.  The result
    is the list of the arguments [stepDt] of the calls of [integrateStep],
    first call first. *)
Definition SUBSTEP_DT_f64 : float := (1 / 1800)%float.
Definition MAX_FRAME_DT_f64 : float := (1 / 20)%float.

(** [Math.min] and [Math.max] on numbers that are not NaN. *)
Definition Math_min_f64 (a b : float) : float :=
  if PrimFloat.ltb b a then b else a.

Definition Math_max_f64 (a b : float) : float :=
  if PrimFloat.ltb a b then b else a.

Fixpoint substepDurations_f64 (fuel : nat) (remaining : float)
    : option (list float) :=
  if PrimFloat.ltb 0%float remaining then
    match fuel with
    | O => None
    | S fuel' =>
        let stepDt := Math_min_f64 remaining SUBSTEP_DT_f64 in
        match substepDurations_f64 fuel' (PrimFloat.sub remaining stepDt) with
        | Some l => Some (stepDt :: l)
        | None => None
        end
    end
  else Some [].

(** [update(dt)] while running. *)
Definition updateDurations_f64 (fuel : nat) (dt : float) : option (list float) :=
  let safeDt := if PrimFloat.is_finite dt then Math_max_f64 0%float dt
                else 0%float in
  let remaining := Math_min_f64 safeDt MAX_FRAME_DT_f64 in
  if PrimFloat.eqb remaining 0%float then Some []
  else substepDurations_f64 fuel remaining.

(** The rational number a finite double stands for. *)
Definition exact_f64 (x : float) : Q :=
  match Prim2SF x with
  | S754_finite s m e =>
      let v := Qmult (Qmake (Z.pos m) 1)
                 (if (0 <=? e)%Z then Qmake (2 ^ e) 1
                  else Qmake 1 (Z.to_pos (2 ^ (- e)))) in
      if s then Qopp v else v
  | _ => Qmake 0 1
  end.

(** The exact sum of a list of durations, in lowest terms. *)
Definition totalDt_f64 (l : list float) : Q :=
  fold_right (fun x acc => Qred (Qplus (exact_f64 x) acc)) (Qmake 0 1) l.

(** ** The main loop of [dev/physics-smoke-test.js]

    [let t = 0; while (t < TOTAL) { let step = Math.min(SUBSTEP_DT, TOTAL - t);
    const E = computeElectricField(); integrateStep(step, E); t += step; }]
    The test file carries its own copies of [computeElectricField] and
    [integrateStep]; they are the functions above, with the random sample an
    argument.  The result is the final [t] and the final [drop]. *)
Fixpoint smokeLoop (fuel : nat) (noise : nat -> R) (TOTAL t : R)
    (st : State) (d : Drop) : option (R * Drop) :=
  if Rlt_dec t TOTAL then
    match fuel with
    | O => None
    | S fuel' =>
        let step := Rmin SUBSTEP_DT (TOTAL - t) in
        let E := computeElectricField st in
        smokeLoop fuel' (fun n => noise (S n)) TOTAL (t + step) st
                  (integrateStep step E (noise O) st d)
    end
  else Some (t, d).

(** [n] calls of [integrateStep] with the same [dt] and [E]. *)
Fixpoint steps (n : nat) (noise : nat -> R) (dt E : R) (st : State)
    (d : Drop) : Drop :=
  match n with
  | O => d
  | S n' => steps n' (fun i => noise (S i)) dt E st
                  (integrateStep dt E (noise O) st d)
  end.

(** ** The coefficient model in the words of the specification

    Volume [(4/3) pi r^3], effective density [max(oil - air, 1)], mass
    floored at [1e-20]; Knudsen number [meanFreePath / max(r, 5 nm)]; slip
    factor [1 + Kn (A + B exp(-C / Kn))] with [A = 1.257], [B = 0.4],
    [C = 1.1]; drag coefficient [6 pi mu r / slipFactor]. *)
Module CoefficientSpec.

Definition mass (r : R) : R :=
  Rmax ((4 / 3) * PI * (r * r * r) * Rmax (OIL_DENSITY - AIR_DENSITY) 1) 1e-20.

Definition Kn (r : R) : R := AIR_MEAN_FREE_PATH / Rmax r 5e-9.

Definition slipFactor (r : R) : R :=
  1 + Kn r * (1.257 + 0.4 * exp (- (1.1 / Kn r))).

Definition dragCoeff (mu r : R) : R := 6 * PI * mu * r / slipFactor r.

End CoefficientSpec.

(** The sum of the durations of a list of calls. *)
Definition totalDt (calls : list Call) : R :=
  fold_right (fun c acc => call_dt c + acc) 0 calls.

(** The calls follow the loop: the first starts with [remaining = start] and
    the state [st]; every call is made with [remaining > 0], with
    [dt = min(remaining, SUBSTEP_DT)], on the state left by the pulse-timer
    lines run on the state before it, and with the field computed from that
    state; the next call starts with [remaining - dt], rounded; after the
    last call [stop] is left. *)
Fixpoint consecutive (start stop : R) (st : State) (calls : list Call) : Prop :=
  match calls with
  | [] => start = stop
  | c :: rest =>
      call_remaining c = start /\ 0 < start /\
      call_dt c = Rmin start SUBSTEP_DT64 /\
      call_state c = tickPulse (call_dt c) st /\
      call_E c = computeElectricField (call_state c) /\
      consecutive (round64 (start - call_dt c)) stop (call_state c) rest
  end.

(** The drop after the calls of a list, made in order on [d]. *)
Definition replay (calls : list Call) (d : Drop) : Drop :=
  fold_left
    (fun acc c => integrateStep (call_dt c) (call_E c) (call_sample c)
                                (call_state c) acc)
    calls d.

(** ** Concrete configurations *)

(** The drop once [bootstrap] has run [recomputeDropCoefficients]. *)
Definition dropBoot : Drop := recomputeDropCoefficients state0 drop0.

(** [state] with another radius, in micrometres. *)
Definition stateRadius (microns : R) : State :=
  {| running := true; voltageKV := 2.0; plateGapMeters := 0.005;
     radiusMicrons := microns; viscosity := 1.8e-5; temperatureK := 295;
     noiseBoost := 1; fieldEnabled := true; gravity := 9.81;
     pulseTimer := 0; fieldPolarity := 1 |}.

(** Gravity only: the field switched off, the noise boost at 0, and a drop
    without charge, with its coefficients computed. *)
Definition stateFall : State :=
  {| running := true; voltageKV := 2.0; plateGapMeters := 0.005;
     radiusMicrons := 0.9; viscosity := 1.8e-5; temperatureK := 295;
     noiseBoost := 0; fieldEnabled := false; gravity := 9.81;
     pulseTimer := 0; fieldPolarity := 1 |}.

Definition dropNeutral : Drop :=
  recomputeDropCoefficients stateFall
    {| y := 0.005 * 0.35; velocity := 0; chargeMultiple := 0%Z;
       chargeCoulombs := 0; radiusMeters := 0.9e-6;
       mass := 0; slipFactor := 1; dragCoeff := 0 |}.

(** The scenario of the smoke test as the specification words it: radius
    0.9 um, viscosity 1.8e-5 Pa.s, 0 kV, 0 K, gap 5 mm, charge -8 e, the
    drop at 35 percent of the gap and at rest, its coefficients computed
    ([recompute()] runs before the loop).  [enabled] is the field switch,
    which makes no difference at 0 kV. *)
Definition stateScenario (enabled : bool) : State :=
  {| running := true; voltageKV := 0; plateGapMeters := 0.005;
     radiusMicrons := 0.9; viscosity := 1.8e-5; temperatureK := 0;
     noiseBoost := 1; fieldEnabled := enabled; gravity := 9.81;
     pulseTimer := 0; fieldPolarity := 1 |}.

Definition dropScenario (enabled : bool) : Drop :=
  recomputeDropCoefficients (stateScenario enabled) drop0.

(** The drop [d] put at position [pos] with velocity [v]. *)
Definition place (d : Drop) (v pos : R) : Drop := setY (setVelocity d v) pos.

(** The velocity and the position of the scenario after [k] sub-steps of
    1/1800 s, in closed form. *)
Definition scenarioVelocity (k : nat) : R :=
  match k with
  | O => 0
  | S O => 9.81 / 1800
  | _ => if Nat.even k then -0.03 else 0.03
  end.

Definition scenarioY (k : nat) : R :=
  match k with
  | O => 0.005 * 0.35
  | _ => if Nat.even k
         then 0.005 * 0.35 + 9.81 / 1800 / 1800 - 0.03 / 1800
         else 0.005 * 0.35 + 9.81 / 1800 / 1800
  end.

(** The number of sub-steps of 1/1800 s in the 3 s of the smoke test. *)
Definition smokeSubsteps : nat := 3 * 1800.

(** ** Setters, buttons and the frame loop

    The entry points through which the page changes [state] and [drop].
    Lines that only write to the page (slider values, labels) are left
    out. *)

Definition HISTORY_WINDOW_SECONDS : R := 20.
Definition HISTORY_SAMPLE_INTERVAL : R := 1 / 45.
Definition MIN_GAP_METERS : R := 0.002.
Definition MAX_GAP_METERS : R := 0.01.

(** [Math.round]: the nearest integer, a tie going up.  [Math.floor]. *)
Definition Math_round (x : R) : Z := Zfloor (x + 1 / 2).
Definition Math_floor (x : R) : Z := Zfloor x.

(** [+(x).toFixed(n)] for a number that is not negative: [x] rounded to [n]
    decimals, a tie going up. *)
Definition toFixed (n : nat) (x : R) : R := IZR (Zfloor (x * 10 ^ n + 1 / 2)) / 10 ^ n.

Definition setVoltageKV (st : State) (v : R) : State :=
  {| running := running st; voltageKV := v;
     plateGapMeters := plateGapMeters st; radiusMicrons := radiusMicrons st;
     viscosity := viscosity st; temperatureK := temperatureK st;
     noiseBoost := noiseBoost st; fieldEnabled := fieldEnabled st;
     gravity := gravity st; pulseTimer := pulseTimer st;
     fieldPolarity := fieldPolarity st |}.

Definition setPlateGapMeters (st : State) (g : R) : State :=
  {| running := running st; voltageKV := voltageKV st;
     plateGapMeters := g; radiusMicrons := radiusMicrons st;
     viscosity := viscosity st; temperatureK := temperatureK st;
     noiseBoost := noiseBoost st; fieldEnabled := fieldEnabled st;
     gravity := gravity st; pulseTimer := pulseTimer st;
     fieldPolarity := fieldPolarity st |}.

Definition setRadius (st : State) (r : R) : State :=
  {| running := running st; voltageKV := voltageKV st;
     plateGapMeters := plateGapMeters st; radiusMicrons := r;
     viscosity := viscosity st; temperatureK := temperatureK st;
     noiseBoost := noiseBoost st; fieldEnabled := fieldEnabled st;
     gravity := gravity st; pulseTimer := pulseTimer st;
     fieldPolarity := fieldPolarity st |}.

(** One point of [trail]: [{ y, alpha }]. *)
Record TrailPoint : Type := mkTrailPoint {
  trail_y : R;
  alpha : R
}.

(** [setChargeMultiple(m)] *)
Definition setChargeMultiple (m : R) (d : Drop) : Drop :=
  let clamped := Math_round (clamp m (-25) 25) in
  {| y := y d; velocity := velocity d;
     chargeMultiple := clamped;
     chargeCoulombs := IZR clamped * ELECTRON_CHARGE;
     radiusMeters := radiusMeters d; mass := mass d;
     slipFactor := slipFactor d; dragCoeff := dragCoeff d |}.

(** [setRadiusMicrons(microns, options)], [preserveVelocity] being
    [options.preserveVelocity]. *)
Definition setRadiusMicrons (microns : R) (preserveVelocity : bool)
    (st : State) (d : Drop) : State * Drop :=
  let clamped := clamp microns 0.3 1.5 in
  let st := setRadius st clamped in
  let d := recomputeDropCoefficients st d in
  let d := setY d (clamp (y d) 0 (plateGapMeters st)) in
  let d := if negb preserveVelocity then setVelocity d 0 else d in
  (st, d).

(** [setPlateGap(mmValue, options)], [preservePosition] being
    [options.preservePosition]; [mmValue] may be non-finite. *)
Definition setPlateGap (mmValue : JsNumber) (preservePosition : bool)
    (st : State) (d : Drop) (trail : list TrailPoint)
    : State * Drop * list TrailPoint :=
  let previousGap := plateGapMeters st in
  let cleanValue :=
    match mmValue with
    | Finite x => x
    | PosInfinity | NegInfinity | NaN => previousGap * 1000
    end in
  let meters := clamp (cleanValue / 1000) MIN_GAP_METERS MAX_GAP_METERS in
  let st := setPlateGapMeters st meters in
  if preservePosition && (if Rlt_dec 0 previousGap then true else false) then
    let relative := clamp (y d / previousGap) 0 1 in
    (st, setY d (relative * meters),
     map (fun pt =>
            let rel := clamp (trail_y pt / previousGap) 0 1 in
            mkTrailPoint (rel * meters) (alpha pt))
         trail)
  else (st, setY d (meters * 0.35), trail).

(** The handler of the pulse button. *)
Definition pulseBtn (st : State) : State :=
  setPulseTimer (setFieldPolarity st (- fieldPolarity st)) 0.8.

(** [advanceTrail(dt, appendSample)], with [state.showTrail] and [drop.y]
    as arguments.  The loop runs from the last point to the first and
    removes the point it is at, so every point is visited once and the
    points kept stay in order: a fold from the right.  [p.alpha || 1] is 1
    when [p.alpha] is 0. *)
Definition fadePoint (fade : R) (p : TrailPoint) : TrailPoint :=
  mkTrailPoint (trail_y p)
    (Rmax 0 ((if Req_dec_T (alpha p) 0 then 1 else alpha p) - fade)).

Definition advanceTrail (showTrail : bool) (dropY dt : R) (appendSample : bool)
    (trail : list TrailPoint) : list TrailPoint :=
  if negb showTrail then []
  else
    let trail :=
      if appendSample then
        let trail := trail ++ [mkTrailPoint dropY 1] in
        if (140 <? length trail)%nat then tl trail else trail
      else trail in
    let fade := clamp dt 0 0.05 * 0.9 in
    fold_right
      (fun p kept =>
         let p := fadePoint fade p in
         if Rle_dec (alpha p) 0.02 then kept else p :: kept)
      [] trail.

(** [resetDrop(randomize)]; [rnd 0], [rnd 1], ... are the values returned by
    the calls of [Math.random()], in order. *)
Definition resetDrop (randomize : bool) (rnd : nat -> R) (st : State)
    (d : Drop) (trail : list TrailPoint) : State * Drop * list TrailPoint :=
  let '(st, d, trail) :=
    if randomize then
      let randomRadius := toFixed 2 (0.4 + rnd 0%nat * 0.9) in
      let st := setVoltageKV st (toFixed 2 (0.5 + rnd 1%nat * 5.5)) in
      let randCharge :=
        (if Rlt_dec 0.5 (rnd 2%nat) then 1 else -1)
        * (2 + IZR (Math_floor (rnd 3%nat * 12))) in
      let d := setChargeMultiple randCharge d in
      let '(st, d) := setRadiusMicrons randomRadius false st d in
      let randomGap := toFixed 1 (2 + rnd 4%nat * 6) in
      setPlateGap (Finite randomGap) false st d trail
    else
      let '(st, d) := setRadiusMicrons (radiusMicrons st) false st d in
      (st, d, trail) in
  (st, setVelocity (setY d (plateGapMeters st * 0.35)) 0, []).

(** The frame duration that [loop] gives to [update]:
    [Math.min(0.05, Math.max(0, (timestamp - lastTime) / 1000))].  The
    literal, the difference and the quotient are rounded. *)
Definition loopDt (timestamp lastTime : R) : R :=
  Rmin (round64 0.05) (Rmax 0 (round64 (round64 (timestamp - lastTime) / 1000))).

(** ** History

    One sample of [historySamples], and [captureHistorySample(dt,
    electricField, force)] with [performance.now() / 1000] as [now] and
    [historyCtx] being there as [hasCtx].  The result is the new
    [historyAccumulator] and the new list. *)
Record HistorySample : Type := mkHistorySample {
  sample_t : R;
  sample_height : R;
  sample_velocity : R;
  sample_field : R
}.

(** [while (historySamples.length && historySamples[0].t < cutoff)
    historySamples.shift();] *)
Fixpoint shiftOlder (cutoff : R) (samples : list HistorySample)
    : list HistorySample :=
  match samples with
  | [] => []
  | s :: rest =>
      if Rlt_dec (sample_t s) cutoff then shiftOlder cutoff rest else samples
  end.

Definition captureHistorySample (hasCtx : bool) (now dt electricField : R)
    (force : bool) (st : State) (d : Drop)
    (accumulator : R) (samples : list HistorySample)
    : R * list HistorySample :=
  if negb hasCtx then (accumulator, samples)
  else
    let accumulator := accumulator + dt in
    if negb force
       && (if Rlt_dec accumulator HISTORY_SAMPLE_INTERVAL then true else false)
    then (accumulator, samples)
    else
      let heightNorm :=
        if Rlt_dec 0 (plateGapMeters st)
        then clamp (y d / plateGapMeters st) 0 1 else 0 in
      let samples :=
        samples ++ [mkHistorySample now heightNorm (velocity d) electricField] in
      let cutoff := now - HISTORY_WINDOW_SECONDS in
      (0, shiftOlder cutoff samples).

(** ** Screen mapping

    [getCanvasSize()] gives the width and the height of the canvas in CSS
    pixels; they are arguments here.  A position on the canvas has [x] to
    the right and [y] downward. *)

(** [getPlateBounds()]: the pair [(top, bottom)]. *)
Definition getPlateBounds (height : R) (st : State) : R * R :=
  let topMargin := 32 in
  let bottomMargin := 32 in
  let minSpacing := 80 in
  let maxSpacing := Rmax 120 (height - topMargin - bottomMargin) in
  let normalized :=
    clamp ((plateGapMeters st - MIN_GAP_METERS)
           / (MAX_GAP_METERS - MIN_GAP_METERS)) 0 1 in
  let spacing := minSpacing + normalized * (maxSpacing - minSpacing) in
  let top := topMargin in
  let bottom := clamp (top + spacing) (top + 40) (height - bottomMargin) in
  (top, bottom).

(** [getDropScreenPositionFromY(yValue)]: the pair [(x, y)]. *)
Definition getDropScreenPositionFromY (width height yValue : R) (st : State)
    : R * R :=
  let '(top, bottom) := getPlateBounds height st in
  let usable := Rmax (bottom - top) 1 in
  let normalized := yValue / plateGapMeters st in
  (width / 2, top + normalized * usable).

(** [getDropScreenPosition()], the same computation at [drop.y]. *)
Definition getDropScreenPosition (width height : R) (st : State) (d : Drop)
    : R * R :=
  let '(top, bottom) := getPlateBounds height st in
  let usable := Rmax (bottom - top) 1 in
  let normalized := y d / plateGapMeters st in
  (width / 2, top + normalized * usable).

Definition getDropPixelRadius (st : State) : R :=
  let minPx := 8 in
  let maxPx := 22 in
  let normalized := (radiusMicrons st - 0.3) / (1.5 - 0.3) in
  minPx + normalized * (maxPx - minPx).

(** The [pointerdown] handler of the canvas; [px], [py] is the pointer
    relative to the canvas, [Math.hypot(dx, dy)] is [sqrt(dx^2 + dy^2)]. *)
Definition pointerdown (width height px py : R) (shiftKey : bool)
    (st : State) (d : Drop) : Drop :=
  let '(cx, cy) := getDropScreenPosition width height st d in
  let dx := px - cx in
  let dy := py - cy in
  let radiusPx := getDropPixelRadius st in
  if Rle_dec (sqrt (dx * dx + dy * dy)) (radiusPx * 1.5) then
    let delta := if shiftKey then 1 else -1 in
    setChargeMultiple (IZR (chargeMultiple d) + delta) d
  else d.

(** The two numbers that [updateReadouts(E)] shows as terminal velocity and
    as balance field ([null], shown as a dash, for a drop without charge). *)
Definition readoutTerminalVelocity (st : State) (d : Drop) : R :=
  let gravityForce := mass d * gravity st in
  if Rlt_dec 0 (dragCoeff d) then gravityForce / dragCoeff d else 0.

Definition readoutBalanceField (st : State) (d : Drop) : option R :=
  let gravityForce := mass d * gravity st in
  if Req_dec_T (chargeCoulombs d) 0 then None
  else Some (gravityForce / chargeCoulombs d).

(** The settings of [state] that a frame does not touch. *)
Definition sameSettings (st st' : State) : Prop :=
  running st' = running st /\ voltageKV st' = voltageKV st /\
  plateGapMeters st' = plateGapMeters st /\
  radiusMicrons st' = radiusMicrons st /\ viscosity st' = viscosity st /\
  temperatureK st' = temperatureK st /\ noiseBoost st' = noiseBoost st /\
  fieldEnabled st' = fieldEnabled st /\ gravity st' = gravity st.

(** Times that never go back: every element is at most the ones after it. *)
Fixpoint ascending (ts : list R) : Prop :=
  match ts with
  | [] => True
  | t :: rest => Forall (fun u => t <= u) rest /\ ascending rest
  end.

(** What the step and the frame keep of a drop: its charge. *)
Definition sameCharge (d d' : Drop) : Prop :=
  chargeMultiple d' = chargeMultiple d /\ chargeCoulombs d' = chargeCoulombs d.

Definition sameCoefficients (d d' : Drop) : Prop :=
  radiusMeters d' = radiusMeters d /\ mass d' = mass d /\
  slipFactor d' = slipFactor d /\ dragCoeff d' = dragCoeff d.

(** * Properties *)

(** Case analysis on the two boundary tests that end a step. *)
Ltac bounce_cases :=
  unfold bounceUpper, bounceLower;
  match goal with
  | |- context [Rlt_dec (y ?d) 0] => destruct (Rlt_dec (y d) 0)
  end;
  cbn [y velocity setY setVelocity];
  match goal with
  | |- context [Rlt_dec ?a ?b] => destruct (Rlt_dec a b)
  end;
  cbn [y velocity setY setVelocity].

(** ** Arithmetic helpers *)

Lemma div_lt_of_lt_mul (a b c : R) : 0 < b -> a < c * b -> a / b < c.
Proof.
  intros Hb H. assert (E : a / b * b = a) by (field; lra). nra.
Qed.

Lemma div_le_of_le_mul (a b c : R) : 0 < b -> a <= c * b -> a / b <= c.
Proof.
  intros Hb H. assert (E : a / b * b = a) by (field; lra). nra.
Qed.

Lemma le_div_of_mul_le (a b c : R) : 0 < b -> c * b <= a -> c <= a / b.
Proof.
  intros Hb H. assert (E : a / b * b = a) by (field; lra). nra.
Qed.

(** ** Coefficient model *)

Lemma floor_radius_pos (r : R) : 0 < Rmax r 5e-9.
Proof.
  apply Rlt_le_trans with 5e-9; [lra | apply Rmax_r].
Qed.

Lemma knudsen_pos (r : R) : 0 < AIR_MEAN_FREE_PATH / Rmax r 5e-9.
Proof.
  apply Rdiv_lt_0_compat; [unfold AIR_MEAN_FREE_PATH; lra | apply floor_radius_pos].
Qed.

Lemma slip_excess_pos (r : R) : 1 < computeSlipCorrection r.
Proof.
  unfold computeSlipCorrection; cbv zeta.
  pose proof (knudsen_pos r) as Hk.
  set (kn := AIR_MEAN_FREE_PATH / Rmax r 5e-9) in *.
  pose proof (exp_pos (- CUNNINGHAM_C / kn)) as He.
  unfold CUNNINGHAM_A, CUNNINGHAM_B in *.
  assert (0 < kn * (1.257 + 0.4 * exp (- CUNNINGHAM_C / kn))) by
    (apply Rmult_lt_0_compat; lra).
  lra.
Qed.

Lemma exp_nonpos_le_1 (x : R) : x <= 0 -> exp x <= 1.
Proof.
  intros [Hx | ->]; [| rewrite exp_0; lra].
  rewrite <- exp_0. left. now apply exp_increasing.
Qed.

Lemma exp_monotone (a b : R) : a <= b -> exp a <= exp b.
Proof.
  intros [H | ->]; [left; now apply exp_increasing | lra].
Qed.

Lemma slip_excess_le (r : R) :
  computeSlipCorrection r
  <= 1 + AIR_MEAN_FREE_PATH / Rmax r 5e-9 * (CUNNINGHAM_A + CUNNINGHAM_B).
Proof.
  unfold computeSlipCorrection; cbv zeta.
  pose proof (knudsen_pos r) as Hk.
  set (kn := AIR_MEAN_FREE_PATH / Rmax r 5e-9) in *.
  assert (He : exp (- CUNNINGHAM_C / kn) <= 1).
  { apply exp_nonpos_le_1. unfold CUNNINGHAM_C.
    assert (0 < 1.1 / kn) by (apply Rdiv_lt_0_compat; lra).
    unfold Rdiv in *. lra. }
  unfold CUNNINGHAM_A, CUNNINGHAM_B in *.
  apply Rplus_le_compat_l, Rmult_le_compat_l; lra.
Qed.

Lemma slip_antitone (r1 r2 : R) :
  r1 <= r2 -> computeSlipCorrection r2 <= computeSlipCorrection r1.
Proof.
  intros Hr. unfold computeSlipCorrection; cbv zeta.
  pose proof (knudsen_pos r1) as H1. pose proof (knudsen_pos r2) as H2.
  assert (Hk : AIR_MEAN_FREE_PATH / Rmax r2 5e-9
               <= AIR_MEAN_FREE_PATH / Rmax r1 5e-9).
  { unfold Rdiv. apply Rmult_le_compat_l; [unfold AIR_MEAN_FREE_PATH; lra |].
    apply Rinv_le_contravar; [apply floor_radius_pos |].
    now apply Rle_max_compat_r. }
  set (k1 := AIR_MEAN_FREE_PATH / Rmax r1 5e-9) in *.
  set (k2 := AIR_MEAN_FREE_PATH / Rmax r2 5e-9) in *.
  assert (He : exp (- CUNNINGHAM_C / k2) <= exp (- CUNNINGHAM_C / k1)).
  { apply exp_monotone. unfold CUNNINGHAM_C, Rdiv.
    assert (/ k1 <= / k2) by (apply Rinv_le_contravar; lra).
    lra. }
  pose proof (exp_pos (- CUNNINGHAM_C / k2)) as Hp.
  unfold CUNNINGHAM_A, CUNNINGHAM_B in *.
  apply Rplus_le_compat_l.
  apply Rmult_le_compat; lra.
Qed.

Lemma effective_density : Rmax (OIL_DENSITY - AIR_DENSITY) 1 = 858.8.
Proof.
  unfold OIL_DENSITY, AIR_DENSITY. rewrite Rmax_left; lra.
Qed.

(** C3. [recomputeDropCoefficients] computes the coefficient model of the
    specification at the radius [radiusMicrons * 1e-6] metres and the
    viscosity of the state: the floored mass, the Cunningham slip factor of
    the floored Knudsen number, and the slip-corrected Stokes drag
    coefficient. *)
Theorem recomputeDropCoefficients_spec (st : State) (d : Drop) :
  let r := radiusMicrons st * 1e-6 in
  let d' := recomputeDropCoefficients st d in
  radiusMeters d' = r /\
  mass d' = CoefficientSpec.mass r /\
  slipFactor d' = CoefficientSpec.slipFactor r /\
  dragCoeff d' = CoefficientSpec.dragCoeff (viscosity st) r /\
  CoefficientSpec.mass r = Rmax ((4 / 3) * PI * r ^ 3 * 858.8) 1e-20.
Proof.
  cbv zeta.
  assert (Hslip : computeSlipCorrection (radiusMicrons st * 1e-6)
                  = CoefficientSpec.slipFactor (radiusMicrons st * 1e-6)).
  { unfold computeSlipCorrection, CoefficientSpec.slipFactor, CoefficientSpec.Kn,
      CUNNINGHAM_A, CUNNINGHAM_B, CUNNINGHAM_C; cbv zeta.
    do 5 f_equal. unfold Rdiv. ring. }
  unfold recomputeDropCoefficients; cbn [radiusMeters mass slipFactor dragCoeff].
  unfold CoefficientSpec.mass, CoefficientSpec.dragCoeff, Math_pow.
  rewrite Hslip, effective_density.
  repeat split; f_equal; ring.
Qed.

Lemma recomputed_mass_pos (st : State) (d : Drop) :
  0 < mass (recomputeDropCoefficients st d).
Proof.
  unfold recomputeDropCoefficients; cbn [mass].
  apply Rlt_le_trans with 1e-20; [lra | apply Rmax_r].
Qed.

Lemma recomputed_drag_pos (st : State) (d : Drop) :
  0 < radiusMicrons st -> 0 < viscosity st ->
  0 < dragCoeff (recomputeDropCoefficients st d).
Proof.
  intros Hr Hmu. unfold recomputeDropCoefficients; cbn [dragCoeff].
  pose proof (slip_excess_pos (radiusMicrons st * 1e-6)) as Hs.
  pose proof PI_RGT_0 as Hpi.
  apply Rdiv_lt_0_compat; [| lra].
  assert (0 < 6 * PI * viscosity st) by (apply Rmult_lt_0_compat; lra).
  apply Rmult_lt_0_compat; lra.
Qed.

(** C4. For a radius between 0.3 and 1.5 micrometres and a viscosity
    between 1e-5 and 3e-5 Pa.s the recomputed mass and drag coefficient are
    strictly positive and the slip factor is at least 1. *)
Theorem coefficients_positive (st : State) (d : Drop) :
  0.3 <= radiusMicrons st <= 1.5 ->
  1e-5 <= viscosity st <= 3e-5 ->
  0 < mass (recomputeDropCoefficients st d) /\
  0 < dragCoeff (recomputeDropCoefficients st d) /\
  1 <= slipFactor (recomputeDropCoefficients st d).
Proof.
  intros Hr Hmu. split; [apply recomputed_mass_pos | split].
  - apply recomputed_drag_pos; lra.
  - cbn [recomputeDropCoefficients slipFactor]. left. apply slip_excess_pos.
Qed.

Lemma coefficients_positive_default :
  0 < mass (recomputeDropCoefficients state0 drop0) /\
  0 < dragCoeff (recomputeDropCoefficients state0 drop0) /\
  1 <= slipFactor (recomputeDropCoefficients state0 drop0).
Proof.
  apply (coefficients_positive state0 drop0); cbn; lra.
Defined.

(** [state] with another radius, as [setRadiusMicrons] leaves it. *)
Lemma slip_of_recomputed (st : State) (d : Drop) :
  slipFactor (recomputeDropCoefficients st d)
  = computeSlipCorrection (radiusMicrons st * 1e-6).
Proof. reflexivity. Qed.

Lemma slip_tends_to_1 (eps : R) :
  0 < eps ->
  forall r, 5e-9 + AIR_MEAN_FREE_PATH * (CUNNINGHAM_A + CUNNINGHAM_B) / eps < r ->
            Rabs (computeSlipCorrection r - 1) < eps.
Proof.
  intros Heps r Hr.
  assert (Hq : 0 < AIR_MEAN_FREE_PATH * (CUNNINGHAM_A + CUNNINGHAM_B) / eps).
  { apply Rdiv_lt_0_compat; [| exact Heps].
    unfold AIR_MEAN_FREE_PATH, CUNNINGHAM_A, CUNNINGHAM_B; lra. }
  assert (Hrpos : 0 < r) by lra.
  pose proof (slip_excess_pos r) as Hlo.
  pose proof (slip_excess_le r) as Hhi.
  rewrite Rmax_left in Hhi by lra.
  rewrite Rabs_right by lra.
  apply Rle_lt_trans with (AIR_MEAN_FREE_PATH / r * (CUNNINGHAM_A + CUNNINGHAM_B));
    [lra |].
  replace (AIR_MEAN_FREE_PATH / r * (CUNNINGHAM_A + CUNNINGHAM_B))
    with (AIR_MEAN_FREE_PATH * (CUNNINGHAM_A + CUNNINGHAM_B) / r)
    by (field; lra).
  apply div_lt_of_lt_mul; [exact Hrpos |].
  assert (AIR_MEAN_FREE_PATH * (CUNNINGHAM_A + CUNNINGHAM_B) / eps * eps
          = AIR_MEAN_FREE_PATH * (CUNNINGHAM_A + CUNNINGHAM_B)) by (field; lra).
  nra.
Qed.

(** C8. The slip factor of the recomputed coefficients does not increase
    when the radius grows, whatever the viscosities, and it tends to 1 as
    the radius tends to infinity: it is within any [eps > 0] of 1 for every
    radius above some bound. *)
Theorem slipFactor_decreasing (st1 st2 : State) (d1 d2 : Drop) :
  radiusMicrons st1 < radiusMicrons st2 ->
  slipFactor (recomputeDropCoefficients st2 d2)
  <= slipFactor (recomputeDropCoefficients st1 d1) /\
  (forall eps, 0 < eps ->
     exists bound, forall st d,
       bound < radiusMicrons st ->
       Rabs (slipFactor (recomputeDropCoefficients st d) - 1) < eps).
Proof.
  intros Hr. split.
  - rewrite !slip_of_recomputed. apply slip_antitone. lra.
  - intros eps Heps.
    exists ((5e-9 + AIR_MEAN_FREE_PATH * (CUNNINGHAM_A + CUNNINGHAM_B) / eps) * 1000000).
    intros st d Hb. rewrite slip_of_recomputed.
    apply slip_tends_to_1; [exact Heps | lra].
Qed.

Lemma slipFactor_decreasing_example :
  radiusMicrons (stateRadius 0.3) < radiusMicrons (stateRadius 1.5) /\
  slipFactor (recomputeDropCoefficients (stateRadius 1.5) drop0)
  <= slipFactor (recomputeDropCoefficients (stateRadius 0.3) drop0).
Proof.
  split; [cbn; lra |].
  apply (slipFactor_decreasing (stateRadius 0.3) (stateRadius 1.5) drop0 drop0).
  cbn. lra.
Defined.

(** ** Step integrator *)

Lemma integrateStep_stages (dt E sample : R) (st : State) (d : Drop) :
  integrateStep dt E sample st d
  = bounceUpper (plateGapMeters st) (bounceLower (moved dt E sample st d)).
Proof. reflexivity. Qed.

Lemma clamp_between (v cap : R) :
  0 <= cap -> - cap <= clamp v (- cap) cap <= cap.
Proof.
  intros Hc. unfold clamp, Rmin, Rmax.
  destruct (Rle_dec v (- cap)); destruct (Rle_dec _ cap); lra.
Qed.

Lemma clamp_inside (v a b : R) : a <= v <= b -> clamp v a b = v.
Proof.
  intros H. unfold clamp. rewrite Rmax_left by lra. apply Rmin_left; lra.
Qed.

Lemma clamp_above (v a b : R) : a <= b -> b <= v -> clamp v a b = b.
Proof.
  intros Hab H. unfold clamp. rewrite Rmax_left by lra. apply Rmin_right; lra.
Qed.

Lemma clamp_below (v a b : R) : a <= b -> v <= a -> clamp v a b = a.
Proof.
  intros Hab H. unfold clamp. rewrite Rmax_right by lra. apply Rmin_left; lra.
Qed.

Lemma speedCap_floor (E : R) (st : State) (d : Drop) :
  0.03 <= speedCap E st d.
Proof.
  unfold speedCap, BASE_MAX_SPEED.
  eapply Rle_trans; [| apply Rmax_r]. lra.
Qed.

Lemma cappedVelocity_bounds (dt E sample : R) (st : State) (d : Drop) :
  - speedCap E st d <= cappedVelocity dt E sample st d <= speedCap E st d.
Proof.
  apply clamp_between. pose proof (speedCap_floor E st d). lra.
Qed.

(** C1. After a step the position lies between 0 and the plate gap,
    whatever the position and the velocity were before; when the position
    after the move is below 0 the step leaves the position 0 and the capped
    velocity times -0.3, and when it is above the gap it leaves the position
    at the gap and the capped velocity times -0.3.  The gap is a
    non-negative number. *)
Theorem integrateStep_stays_in_gap (dt E sample : R) (st : State) (d : Drop) :
  0 <= plateGapMeters st ->
  let d' := integrateStep dt E sample st d in
  0 <= y d' <= plateGapMeters st /\
  (movedY dt E sample st d < 0 ->
     y d' = 0 /\ velocity d' = cappedVelocity dt E sample st d * -0.3) /\
  (plateGapMeters st < movedY dt E sample st d ->
     y d' = plateGapMeters st /\
     velocity d' = cappedVelocity dt E sample st d * -0.3).
Proof.
  intros Hgap d'. subst d'. rewrite integrateStep_stages.
  assert (Hy : y (moved dt E sample st d) = movedY dt E sample st d)
    by reflexivity.
  assert (Hv : velocity (moved dt E sample st d)
               = cappedVelocity dt E sample st d) by reflexivity.
  bounce_cases; unfold BOUNCE_DAMPING; rewrite ?Hy, ?Hv in *;
    repeat split; intros; lra.
Qed.

Lemma integrateStep_stays_in_gap_default :
  0 <= plateGapMeters state0 /\
  0 <= y (integrateStep SUBSTEP_DT 0 0 state0 dropBoot) <= plateGapMeters state0.
Proof.
  split; [cbn; lra |].
  apply (integrateStep_stays_in_gap SUBSTEP_DT 0 0 state0 dropBoot).
  cbn. lra.
Defined.

Lemma bounce_shrinks_speed (maxY cap : R) (d : Drop) :
  0 <= cap -> Rabs (velocity d) <= cap ->
  Rabs (velocity (bounceUpper maxY (bounceLower d))) <= cap.
Proof.
  intros Hcap Hv.
  assert (Hdamp : forall v, Rabs v <= cap -> Rabs (v * - BOUNCE_DAMPING) <= cap).
  { intros v Hv'. unfold BOUNCE_DAMPING. rewrite Rabs_mult.
    rewrite Rabs_Ropp, (Rabs_right 0.3) by lra.
    pose proof (Rabs_pos v). lra. }
  bounce_cases; auto.
Qed.

(** C5. The velocity left by a step is at most the speed cap in magnitude.
    The cap of the code is at most [max(max(2 |vt|, 0.02), 0.25 * 0.12)]
    with [vt = (gravityForce + electricForce) / dragCoeff], and it is equal
    to it when the drag coefficient (the one the step uses, after the
    recomputation guard) is positive.  The clamp to the cap is applied to the
    velocity given by the Euler update, and the position is moved with the
    clamped velocity before the boundary tests. *)
Theorem integrateStep_speed_capped (dt E sample : R) (st : State) (d : Drop) :
  let vt := (gravityForce st d + electricForce E d) / dragCoeff (refreshed st d) in
  let cap := Rmax (Rmax (2 * Rabs vt) 0.02) (0.25 * 0.12) in
  let v1 := velocity (refreshed st d)
            + netForce dt E sample st d / mass (refreshed st d) * dt in
  let v2 := clamp v1 (- speedCap E st d) (speedCap E st d) in
  Rabs (velocity (integrateStep dt E sample st d)) <= speedCap E st d <= cap /\
  (0 < dragCoeff (refreshed st d) -> speedCap E st d = cap) /\
  integrateStep dt E sample st d
  = bounceUpper (plateGapMeters st)
      (bounceLower (setY (setVelocity (refreshed st d) v2)
                         (y (refreshed st d) + v2 * dt))).
Proof.
  intros vt cap v1 v2.
  assert (Hcap : 0 < dragCoeff (refreshed st d) -> speedCap E st d = cap).
  { intros Hc. unfold speedCap, vtAnalytic, cap, vt, BASE_MAX_SPEED.
    destruct (Rlt_dec 0 (dragCoeff (refreshed st d))); [| contradiction].
    f_equal. lra. }
  assert (Hle : speedCap E st d <= cap).
  { destruct (Rlt_dec 0 (dragCoeff (refreshed st d))) as [Hc | Hc].
    - rewrite (Hcap Hc). lra.
    - unfold speedCap, vtAnalytic, BASE_MAX_SPEED.
      destruct (Rlt_dec 0 (dragCoeff (refreshed st d))); [contradiction |].
      rewrite Rabs_R0. unfold cap.
      apply Rmax_lub; [apply Rmax_lub |].
      + eapply Rle_trans; [| apply Rmax_r]. lra.
      + eapply Rle_trans; [| apply Rmax_r]. lra.
      + eapply Rle_trans; [| apply Rmax_r]. lra. }
  pose proof (speedCap_floor E st d) as Hfloor.
  pose proof (cappedVelocity_bounds dt E sample st d) as Hb.
  repeat split; auto.
  rewrite integrateStep_stages. apply bounce_shrinks_speed; [lra |].
  apply Rabs_le. exact Hb.
Qed.

Lemma integrateStep_speed_capped_default :
  Rabs (velocity (integrateStep SUBSTEP_DT 400000 1 state0 dropBoot))
  <= Rmax (Rmax (2 * Rabs ((gravityForce state0 dropBoot
                            + electricForce 400000 dropBoot)
                           / dragCoeff (refreshed state0 dropBoot))) 0.02)
          (0.25 * 0.12).
Proof.
  destruct (integrateStep_speed_capped SUBSTEP_DT 400000 1 state0 dropBoot)
    as ((Hv & Hc) & _).
  eapply Rle_trans; [exact Hv | exact Hc].
Defined.

(** *** Thermal noise *)

Lemma dropBoot_drag_pos : 0 < dragCoeff dropBoot.
Proof. apply recomputed_drag_pos; cbn; lra. Qed.

Lemma refreshed_valid (st : State) (d : Drop) :
  0 < dragCoeff d -> refreshed st d = d.
Proof.
  intros H. unfold refreshed. destruct (Rle_dec (dragCoeff d) 0); [lra | reflexivity].
Qed.

(** The claim C2 as written fails below the floor of one microsecond that
    the code puts under [dt]: at [dt = 0.25 us], in the initial
    configuration, the standard deviation is not
    [0.6 sqrt(2 kB T dragCoeff / dt)]. *)
Lemma noiseStd_below_floor :
  0 < 2.5e-7 <= SUBSTEP_DT /\
  noiseStd 2.5e-7 state0 dropBoot
  <> 0.6 * sqrt (2 * BOLTZMANN * temperatureK state0
                 * dragCoeff (refreshed state0 dropBoot) / 2.5e-7).
Proof.
  split; [unfold SUBSTEP_DT; lra |].
  unfold noiseStd. rewrite (refreshed_valid _ _ dropBoot_drag_pos).
  pose proof dropBoot_drag_pos as Hc.
  set (c := dragCoeff dropBoot) in *.
  rewrite Rmax_right by lra.
  cbn [temperatureK state0]. unfold BOLTZMANN.
  intros Heq.
  assert (Hs : sqrt (2 * 1.380649e-23 * 295 * c / 1e-6)
               = sqrt (2 * 1.380649e-23 * 295 * c / 2.5e-7)) by lra.
  apply sqrt_inj in Hs; lra.
Qed.

(** C2, amended.  The standard deviation of the thermal force is
    [0.6 sqrt(2 kB T dragCoeff / max(dt, 1e-6))].  For a sub-step of at
    least one microsecond this is [0.6 sqrt(2 kB T dragCoeff / dt)], that is
    [0.6 sqrt(2 kB T dragCoeff) / sqrt(dt)] when [T dragCoeff >= 0]; for a
    shorter sub-step it is the value at one microsecond.  The force added to
    the net force is [noiseBoost * noiseStd * sample]. *)
Theorem noiseStd_scaling (dt E sample : R) (st : State) (d : Drop) :
  let a := 2 * BOLTZMANN * temperatureK st * dragCoeff (refreshed st d) in
  (1e-6 <= dt -> noiseStd dt st d = 0.6 * sqrt (a / dt)) /\
  (1e-6 <= dt -> 0 <= temperatureK st * dragCoeff (refreshed st d) ->
     noiseStd dt st d = 0.6 * sqrt a / sqrt dt) /\
  (dt <= 1e-6 -> noiseStd dt st d = 0.6 * sqrt (a / 1e-6)) /\
  netForce dt E sample st d
  = gravityForce st d + electricForce E d
    + - dragCoeff (refreshed st d) * velocity (refreshed st d)
    + noiseBoost st * noiseStd dt st d * sample.
Proof.
  cbv zeta. unfold noiseStd. repeat split.
  - intros H. now rewrite Rmax_left by lra.
  - intros H Hpos. rewrite Rmax_left by lra.
    rewrite sqrt_div_alt by lra. unfold Rdiv. ring.
  - intros H. now rewrite Rmax_right by lra.
Qed.

Lemma noiseStd_scaling_default :
  1e-6 <= SUBSTEP_DT /\
  noiseStd SUBSTEP_DT state0 dropBoot
  = 0.6 * sqrt (2 * BOLTZMANN * temperatureK state0
                * dragCoeff (refreshed state0 dropBoot) / SUBSTEP_DT).
Proof.
  assert (H : 1e-6 <= SUBSTEP_DT) by (unfold SUBSTEP_DT; lra).
  split; [exact H |].
  exact (proj1 (noiseStd_scaling SUBSTEP_DT 0 0 state0 dropBoot) H).
Defined.

(** ** Rounding *)

Lemma nearestEven_error (x : R) :
  - (1 / 2) <= IZR (nearestEven x) - x <= 1 / 2.
Proof.
  unfold nearestEven; cbv zeta. pose proof (Zfloor_bound x) as H.
  destruct (Rlt_dec (x - IZR (Zfloor x)) (1 / 2)); [lra |].
  destruct (Rlt_dec (1 / 2) (x - IZR (Zfloor x))); [rewrite plus_IZR; lra |].
  destruct (Z.even (Zfloor x)); [| rewrite plus_IZR]; lra.
Qed.

Lemma nearestEven_nonneg (x : R) : 0 <= x -> (0 <= nearestEven x)%Z.
Proof.
  intros Hx. pose proof (Zfloor_bound x) as H.
  assert (Hn : (0 <= Zfloor x)%Z).
  { assert (H1 : (0 < Zfloor x + 1)%Z) by (apply lt_IZR; rewrite plus_IZR; lra).
    lia. }
  unfold nearestEven; cbv zeta.
  repeat match goal with |- context [if ?c then _ else _] => destruct c end; lia.
Qed.

Lemma nearestEven_nonpos (x : R) : x <= 0 -> (nearestEven x <= 0)%Z.
Proof.
  intros Hx. pose proof (Zfloor_bound x) as H.
  unfold nearestEven; cbv zeta.
  destruct (Rlt_dec (x - IZR (Zfloor x)) (1 / 2)) as [Hlo | Hlo].
  - apply le_IZR. lra.
  - assert (Hn : (Zfloor x < 0)%Z) by (apply lt_IZR; lra).
    repeat match goal with |- context [if ?c then _ else _] => destruct c end; lia.
Qed.

(** Rounding keeps the sign, and 0 is a double. *)
Lemma round64_nonneg (x : R) : 0 <= x -> 0 <= round64 x.
Proof.
  intros Hx. unfold round64. destruct (Req_dec_T x 0); [lra |].
  apply Rmult_le_pos; [| apply powerRZ_le; lra].
  apply IZR_le, nearestEven_nonneg.
  apply Rmult_le_pos; [exact Hx | apply powerRZ_le; lra].
Qed.

Lemma round64_nonpos (x : R) : x <= 0 -> round64 x <= 0.
Proof.
  intros Hx. unfold round64. destruct (Req_dec_T x 0); [lra |].
  pose proof (powerRZ_lt 2 (ulpExponent x) ltac:(lra)) as Hp.
  pose proof (powerRZ_lt 2 (- ulpExponent x) ltac:(lra)) as Hq.
  assert (Hn : IZR (nearestEven (x * powerRZ 2 (- ulpExponent x))) <= 0).
  { apply IZR_le, nearestEven_nonpos. nra. }
  nra.
Qed.

Lemma round64_0 : round64 0 = 0.
Proof. unfold round64. destruct (Req_dec_T 0 0); [reflexivity | lra]. Qed.

Lemma powerRZ_2_ge_1 (k : Z) : (0 <= k)%Z -> 1 <= powerRZ 2 k.
Proof.
  intros Hk. destruct k as [| p | p]; cbn [powerRZ]; [lra | | lia].
  apply pow_R1_Rle. lra.
Qed.

Lemma powerRZ_2_mono (a b : Z) : (a <= b)%Z -> powerRZ 2 a <= powerRZ 2 b.
Proof.
  intros Hab. replace b with (a + (b - a))%Z by lia.
  rewrite powerRZ_add by lra.
  pose proof (powerRZ_lt 2 a ltac:(lra)).
  pose proof (powerRZ_2_ge_1 (b - a) ltac:(lia)). nra.
Qed.

Lemma powerRZ_2_m57 : powerRZ 2 (-57) = 2 * HALF_ULP.
Proof.
  unfold powerRZ, HALF_ULP.
  replace (Pos.to_nat 57) with 57%nat by reflexivity.
  simpl pow. lra.
Qed.

Lemma ln_powerRZ_2 (k : Z) : ln (powerRZ 2 k) = IZR k * ln 2.
Proof. rewrite powerRZ_Rpower by lra. apply ln_Rpower. Qed.

(** The doubles below [1/16] are at most [2^-57] apart. *)
Lemma ulpExponent_small (x : R) : 0 < x < 1 / 16 -> (ulpExponent x <= -57)%Z.
Proof.
  intros [H0 H1]. unfold ulpExponent. rewrite Rabs_right by lra.
  assert (Hl : ln x < - 4 * ln 2).
  { replace (- 4 * ln 2) with (ln (/ (2 * 2 * 2 * 2))).
    - apply ln_increasing; lra.
    - rewrite ln_Rinv by lra. rewrite !ln_mult by lra. ring. }
  pose proof ln_lt_2 as Hln2.
  assert (Hq : ln x / ln 2 < - 4).
  { apply Rmult_lt_reg_r with (ln 2); [lra |].
    replace (ln x / ln 2 * ln 2) with (ln x) by (field; lra). lra. }
  pose proof (Zfloor_bound (ln x / ln 2)) as [Hf _].
  assert (Hz : (Zfloor (ln x / ln 2) < - 4)%Z) by (apply lt_IZR; lra).
  lia.
Qed.

Lemma round64_error (x : R) :
  0 <= x < 1 / 16 -> - HALF_ULP <= round64 x - x <= HALF_ULP.
Proof.
  intros [H0 H1]. unfold round64.
  destruct (Req_dec_T x 0) as [-> | Hx]; [unfold HALF_ULP; lra |].
  set (e := ulpExponent x).
  assert (He : (e <= -57)%Z) by (apply ulpExponent_small; lra).
  pose proof (powerRZ_lt 2 e ltac:(lra)) as Hp.
  pose proof (powerRZ_2_mono e (-57) He) as Hle. rewrite powerRZ_2_m57 in Hle.
  assert (Hinv : powerRZ 2 (- e) * powerRZ 2 e = 1).
  { rewrite <- powerRZ_add by lra. replace (- e + e)%Z with 0%Z by lia.
    reflexivity. }
  pose proof (nearestEven_error (x * powerRZ 2 (- e))) as Hn.
  set (m := IZR (nearestEven (x * powerRZ 2 (- e)))) in *.
  set (p := powerRZ 2 e) in *. set (q := powerRZ 2 (- e)) in *.
  assert (Hx' : x = x * q * p) by (rewrite Rmult_assoc, Hinv; ring).
  assert (Hd : m * p - x = (m - x * q) * p) by (rewrite Hx' at 1; ring).
  rewrite Hd. split; nra.
Qed.

(** *** Rounding a given number *)

Lemma nearestEven_eval (x : R) (m : Z) :
  IZR m - 1 / 2 < x < IZR m + 1 / 2 -> nearestEven x = m.
Proof.
  intros [H1 H2]. pose proof (nearestEven_error x) as He.
  assert (Hlt : (nearestEven x < m + 1)%Z)
    by (apply lt_IZR; rewrite plus_IZR; lra).
  assert (Hgt : (m - 1 < nearestEven x)%Z)
    by (apply lt_IZR; rewrite minus_IZR; lra).
  lia.
Qed.

(** A tie goes to the even neighbour. *)
Lemma nearestEven_tie (x : R) (m : Z) :
  x = IZR m + 1 / 2 -> Z.even m = true -> nearestEven x = m.
Proof.
  intros Hx Hm. unfold nearestEven; cbv zeta.
  assert (Hf : Zfloor x = m) by (apply Zfloor_eq; lra).
  rewrite Hf.
  destruct (Rlt_dec (x - IZR m) (1 / 2)); [lra |].
  destruct (Rlt_dec (1 / 2) (x - IZR m)); [lra |].
  rewrite Hm. reflexivity.
Qed.

Lemma ulpExponent_binade (x : R) (k : Z) :
  powerRZ 2 k <= x < powerRZ 2 (k + 1) -> (-1022 <= k)%Z ->
  ulpExponent x = (k - 52)%Z.
Proof.
  intros [Hlo Hhi] Hk. unfold ulpExponent.
  pose proof (powerRZ_lt 2 k ltac:(lra)) as Hp.
  rewrite Rabs_right by lra.
  pose proof ln_lt_2 as Hln2.
  assert (H1 : IZR k * ln 2 <= ln x).
  { rewrite <- ln_powerRZ_2. destruct Hlo as [Hlo | <-]; [| lra].
    left. apply ln_increasing; lra. }
  assert (H2 : ln x < (IZR k + 1) * ln 2).
  { rewrite <- plus_IZR, <- ln_powerRZ_2. apply ln_increasing; lra. }
  assert (Hf : Zfloor (ln x / ln 2) = k).
  { apply Zfloor_eq. split.
    - apply Rmult_le_reg_r with (ln 2); [lra |].
      replace (ln x / ln 2 * ln 2) with (ln x) by (field; lra). lra.
    - apply Rmult_lt_reg_r with (ln 2); [lra |].
      replace (ln x / ln 2 * ln 2) with (ln x) by (field; lra). lra. }
  rewrite Hf. lia.
Qed.

Lemma powerRZ_2_neg (n : nat) : powerRZ 2 (- Z.of_nat n) = / 2 ^ n.
Proof.
  assert (Hn : 0 < 2 ^ n) by (apply pow_lt; lra).
  assert (H : powerRZ 2 (- Z.of_nat n) * 2 ^ n = 1).
  { rewrite pow_powerRZ, <- powerRZ_add by lra.
    replace (- Z.of_nat n + Z.of_nat n)%Z with 0%Z by lia. reflexivity. }
  apply Rmult_eq_reg_r with (2 ^ n); [| lra].
  rewrite H. field. lra.
Qed.

(** A tie below an even integer goes up to it. *)
Lemma nearestEven_tie_up (x : R) (m : Z) :
  x = IZR m - 1 / 2 -> Z.even m = true -> nearestEven x = m.
Proof.
  intros Hx Hm. unfold nearestEven; cbv zeta.
  assert (Hf : Zfloor x = (m - 1)%Z) by (apply Zfloor_eq; rewrite minus_IZR; lra).
  rewrite Hf, minus_IZR.
  destruct (Rlt_dec (x - (IZR m - 1)) (1 / 2)); [lra |].
  destruct (Rlt_dec (1 / 2) (x - (IZR m - 1))); [lra |].
  replace (Z.even (m - 1)) with false.
  - lia.
  - rewrite Z.even_sub, Hm. reflexivity.
Qed.

(** The double nearest to a number of the binade [2^-(j+1) <= x < 2^-j]:
    the doubles there are the multiples of [2^-(53+j)]. *)
Lemma round64_binade (x : R) (j : nat) (m : Z) :
  (j <= 1021)%nat ->
  / 2 ^ S j <= x < / 2 ^ j ->
  IZR m - 1 / 2 < x * 2 ^ (53 + j) < IZR m + 1 / 2 \/
  (x * 2 ^ (53 + j) = IZR m + 1 / 2 /\ Z.even m = true) \/
  (x * 2 ^ (53 + j) = IZR m - 1 / 2 /\ Z.even m = true) ->
  round64 x = IZR m / 2 ^ (53 + j).
Proof.
  intros Hj [Hlo Hhi] Hm.
  assert (Hpos : 0 < / 2 ^ S j) by (apply Rinv_0_lt_compat, pow_lt; lra).
  assert (He : ulpExponent x = (- Z.of_nat (53 + j))%Z).
  { rewrite (ulpExponent_binade x (- Z.of_nat (S j))); [lia | | lia].
    rewrite powerRZ_2_neg.
    replace (- Z.of_nat (S j) + 1)%Z with (- Z.of_nat j)%Z by lia.
    rewrite powerRZ_2_neg. lra. }
  unfold round64. destruct (Req_dec_T x 0) as [Hz | Hz]; [lra |].
  rewrite He, Z.opp_involutive, <- pow_powerRZ, powerRZ_2_neg.
  unfold Rdiv. f_equal. f_equal.
  destruct Hm as [Hm | [[Hm Heven] | [Hm Heven]]];
    [apply nearestEven_eval | apply nearestEven_tie | apply nearestEven_tie_up];
    assumption.
Qed.

Lemma IZR_pow2 (n : nat) : IZR (2 ^ Z.of_nat n) = 2 ^ n.
Proof. rewrite pow_IZR. reflexivity. Qed.

Lemma pow2_pos (n : nat) : 0 < 2 ^ n.
Proof. apply pow_lt. lra. Qed.

(** Rounding a whole number of units. *)
Lemma roundUnits_correct (n : Z) :
  (0 <= n < 2 ^ 62)%Z ->
  round64 (fromUnits n) = fromUnits (roundUnits n).
Proof.
  intros [H0 Hn]. unfold fromUnits.
  destruct (Z.eq_dec n 0) as [-> | Hnz].
  { replace (0 / 2 ^ 63) with 0 by (unfold Rdiv; ring). rewrite round64_0.
    cbn. unfold Rdiv; ring. }
  assert (Hpos : (0 < n)%Z) by lia.
  destruct (Z.log2_spec n Hpos) as [Hlo Hhi].
  pose proof (Z.log2_nonneg n) as HL0.
  assert (HL : (Z.log2 n < 62)%Z) by (apply Z.log2_lt_pow2; lia).
  set (l := Z.to_nat (Z.log2 n)).
  assert (Hl : Z.log2 n = Z.of_nat l) by (subst l; lia).
  rewrite Hl in Hlo, Hhi.
  assert (Hl61 : (l <= 61)%nat) by lia.
  assert (Rlo : 2 ^ l <= IZR n).
  { rewrite <- IZR_pow2. apply IZR_le. exact Hlo. }
  assert (Rhi : IZR n < 2 ^ S l).
  { rewrite <- IZR_pow2. apply IZR_lt.
    replace (Z.of_nat (S l)) with (Z.succ (Z.of_nat l)) by lia. exact Hhi. }
  set (j := (62 - l)%nat).
  assert (H63 : 2 ^ 63 = 2 ^ S l * 2 ^ j).
  { rewrite <- pow_add. f_equal. lia. }
  assert (H63' : 2 ^ 63 = 2 ^ l * 2 ^ S j).
  { rewrite <- pow_add. f_equal. lia. }
  pose proof (pow2_pos l) as Pl. pose proof (pow2_pos (S l)) as PSl.
  pose proof (pow2_pos j) as Pj. pose proof (pow2_pos (S j)) as PSj.
  pose proof (pow2_pos 63) as P63.
  assert (Hbin : / 2 ^ S j <= IZR n / 2 ^ 63 < / 2 ^ j).
  { split.
    - rewrite H63'. unfold Rdiv. rewrite Rinv_mult.
      apply Rmult_le_reg_r with (2 ^ S j); [lra |].
      field_simplify; [| lra | lra]. apply Rmult_le_reg_r with (2 ^ l); [lra |].
      field_simplify; lra.
    - rewrite H63. unfold Rdiv. rewrite Rinv_mult.
      apply Rmult_lt_reg_r with (2 ^ j); [lra |].
      field_simplify; [| lra | lra]. apply Rmult_lt_reg_r with (2 ^ S l); [lra |].
      field_simplify; lra. }
  unfold roundUnits; cbv zeta. rewrite Hl.
  destruct (Z.leb_spec (Z.of_nat l - 52) 0) as [Hsmall | Hbig].
  - (* at most 53 bits: exact *)
    set (k := (52 - l)%nat).
    assert (Hs : 2 ^ (53 + j) = 2 ^ 63 * 2 ^ k).
    { rewrite <- pow_add. f_equal. lia. }
    pose proof (pow2_pos k) as Pk.
    rewrite (round64_binade _ j (n * 2 ^ Z.of_nat k)); [| lia | exact Hbin |].
    + rewrite Hs, mult_IZR, IZR_pow2. field. lra.
    + left. rewrite Hs, mult_IZR, IZR_pow2.
      replace (IZR n / 2 ^ 63 * (2 ^ 63 * 2 ^ k)) with (IZR n * 2 ^ k)
        by (field; lra).
      lra.
  - set (t := (l - 52)%nat).
    assert (Ht : (Z.of_nat l - 52 = Z.of_nat t)%Z) by lia.
    rewrite Ht.
    assert (Hs : 2 ^ 63 = 2 ^ (53 + j) * 2 ^ t).
    { rewrite <- pow_add. f_equal. lia. }
    pose proof (pow2_pos t) as Pt. pose proof (pow2_pos (53 + j)) as P53.
    assert (Ht1 : (Z.of_nat t - 1 = Z.of_nat (t - 1))%Z) by lia.
    rewrite Ht1.
    assert (Htt : 2 ^ t = 2 * 2 ^ (t - 1)).
    { replace t with (S (t - 1)) at 1 by lia. reflexivity. }
    pose proof (pow2_pos (t - 1)) as Pt1.
    assert (Hzt : (0 < 2 ^ Z.of_nat t)%Z) by (apply Z.pow_pos_nonneg; lia).
    pose proof (Z.div_mod n (2 ^ Z.of_nat t) ltac:(lia)) as Hdm.
    pose proof (Z.mod_pos_bound n (2 ^ Z.of_nat t) Hzt) as Hr.
    set (q := (n / 2 ^ Z.of_nat t)%Z) in *.
    set (r := (n mod 2 ^ Z.of_nat t)%Z) in *.
    assert (Rn : IZR n = 2 ^ t * IZR q + IZR r).
    { rewrite Hdm, plus_IZR, mult_IZR, IZR_pow2. reflexivity. }
    assert (Rr : 0 <= IZR r < 2 ^ t).
    { split; [apply IZR_le; lia |]. rewrite <- IZR_pow2. apply IZR_lt. lia. }
    assert (Hscaled : IZR n / 2 ^ 63 * 2 ^ (53 + j) = IZR q + IZR r / 2 ^ t).
    { rewrite Hs, Rn. field. lra. }
    assert (Hres : forall m : Z,
               IZR m / 2 ^ (53 + j) = IZR (m * 2 ^ Z.of_nat t) / 2 ^ 63).
    { intros m. rewrite Hs, mult_IZR, IZR_pow2. field. lra. }
    assert (Hfrac : IZR r / 2 ^ t * 2 ^ t = IZR r) by (field; lra).
    destruct (Z.ltb_spec r (2 ^ Z.of_nat (t - 1))) as [Hlt | Hge].
    + rewrite <- Hres. apply round64_binade; [lia | exact Hbin |].
      left. rewrite Hscaled.
      assert (IZR r < 2 ^ (t - 1)) by (rewrite <- IZR_pow2; now apply IZR_lt).
      assert (IZR r / 2 ^ t < 1 / 2).
      { apply Rmult_lt_reg_r with (2 ^ t); [lra |]. rewrite Hfrac. lra. }
      assert (0 <= IZR r / 2 ^ t).
      { apply Rmult_le_reg_r with (2 ^ t); [lra |]. rewrite Hfrac. lra. }
      lra.
    + destruct (Z.ltb_spec (2 ^ Z.of_nat (t - 1)) r) as [Hgt | Hle].
      * rewrite <- Hres. apply round64_binade; [lia | exact Hbin |].
        left. rewrite Hscaled, plus_IZR.
        assert (2 ^ (t - 1) < IZR r) by (rewrite <- IZR_pow2; now apply IZR_lt).
        assert (1 / 2 < IZR r / 2 ^ t).
        { apply Rmult_lt_reg_r with (2 ^ t); [lra |]. rewrite Hfrac. lra. }
        assert (IZR r / 2 ^ t < 1).
        { apply Rmult_lt_reg_r with (2 ^ t); [lra |]. rewrite Hfrac. lra. }
        lra.
      * assert (Heq : r = (2 ^ Z.of_nat (t - 1))%Z) by lia.
        assert (Hhalf : IZR r / 2 ^ t = 1 / 2).
        { rewrite Heq, IZR_pow2, Htt. field. lra. }
        destruct (Z.even q) eqn:Heven.
        -- rewrite <- Hres. apply round64_binade; [lia | exact Hbin |].
           right. left. split; [rewrite Hscaled; lra | exact Heven].
        -- rewrite <- Hres. apply round64_binade; [lia | exact Hbin |].
           right. right. split; [rewrite Hscaled, plus_IZR; lra |].
           rewrite Z.even_add, Heven. reflexivity.
Qed.

(** ** Frame driver *)

(** The two constants: [1 / 1800] is rounded to [5124095576030431 * 2^-63]
    and [1 / 20] to [7205759403792794 * 2^-57]; the primitive division gives
    the same two numbers. *)
Lemma SUBSTEP_DT64_value :
  SUBSTEP_DT64 = 5124095576030431 / 9223372036854775808.
Proof.
  unfold SUBSTEP_DT64, SUBSTEP_DT.
  rewrite (round64_binade _ 10 5124095576030431).
  - cbn [pow plus]. lra.
  - lia.
  - cbn [pow plus]. lra.
  - left. cbn [pow plus]. lra.
Qed.

Lemma MAX_FRAME_DT64_value :
  MAX_FRAME_DT64 = 7205759403792794 / 144115188075855872.
Proof.
  unfold MAX_FRAME_DT64, MAX_FRAME_DT.
  rewrite (round64_binade _ 4 7205759403792794).
  - cbn [pow plus]. lra.
  - lia.
  - cbn [pow plus]. lra.
  - left. cbn [pow plus]. lra.
Qed.

Lemma constants_f64 :
  exact_f64 SUBSTEP_DT_f64 = Qmake 5124095576030431 9223372036854775808 /\
  exact_f64 MAX_FRAME_DT_f64 = Qmake 7205759403792794 144115188075855872.
Proof. split; vm_compute; reflexivity. Qed.

Lemma fromUnits_SUBSTEP : fromUnits SUBSTEP_UNITS = SUBSTEP_DT64.
Proof.
  rewrite SUBSTEP_DT64_value. unfold fromUnits, SUBSTEP_UNITS.
  cbn [pow]. lra.
Qed.

Lemma fromUnits_lt (a b : Z) : (a < b)%Z <-> fromUnits a < fromUnits b.
Proof.
  unfold fromUnits. pose proof (pow2_pos 63) as P. split; intros H.
  - apply IZR_lt in H. apply Rmult_lt_compat_r; [apply Rinv_0_lt_compat |]; lra.
  - apply lt_IZR. apply Rmult_lt_reg_r with (/ 2 ^ 63);
      [apply Rinv_0_lt_compat; lra | exact H].
Qed.

Lemma fromUnits_le (a b : Z) : (a <= b)%Z <-> fromUnits a <= fromUnits b.
Proof.
  unfold fromUnits. pose proof (pow2_pos 63) as P. split; intros H.
  - apply IZR_le in H. apply Rmult_le_compat_r; [| exact H].
    left. apply Rinv_0_lt_compat. lra.
  - apply le_IZR. apply Rmult_le_reg_r with (/ 2 ^ 63);
      [apply Rinv_0_lt_compat; lra | exact H].
Qed.

Lemma fromUnits_0 : fromUnits 0 = 0.
Proof. unfold fromUnits, Rdiv. ring. Qed.

Lemma fromUnits_sub (a b : Z) : fromUnits (a - b) = fromUnits a - fromUnits b.
Proof. unfold fromUnits. rewrite minus_IZR. unfold Rdiv. ring. Qed.

Lemma fromUnits_add (a b : Z) : fromUnits (a + b) = fromUnits a + fromUnits b.
Proof. unfold fromUnits. rewrite plus_IZR. unfold Rdiv. ring. Qed.

Lemma fromUnits_min (a b : Z) :
  fromUnits (Z.min a b) = Rmin (fromUnits a) (fromUnits b).
Proof.
  destruct (Z.le_gt_cases a b) as [H | H].
  - rewrite Z.min_l by exact H. symmetry. apply Rmin_left.
    now apply fromUnits_le.
  - rewrite Z.min_r by lia. symmetry. apply Rmin_right.
    apply fromUnits_le. lia.
Qed.

Lemma fromUnits_sixteenth : fromUnits (2 ^ 59) = 1 / 16.
Proof.
  unfold fromUnits. replace (2 ^ 59)%Z with (2 ^ Z.of_nat 59)%Z by reflexivity.
  rewrite IZR_pow2. cbn [pow]. lra.
Qed.

Lemma fromUnits_MAX_FRAME : fromUnits MAX_FRAME_UNITS = MAX_FRAME_DT64.
Proof.
  rewrite MAX_FRAME_DT64_value. unfold fromUnits, MAX_FRAME_UNITS.
  cbn [pow]. lra.
Qed.

Lemma HALF_ULP_small : 0 < HALF_ULP < 1 / 1000000000000000.
Proof. unfold HALF_ULP. lra. Qed.

Lemma SUBSTEP_DT64_near :
  SUBSTEP_DT - HALF_ULP <= SUBSTEP_DT64 <= SUBSTEP_DT + HALF_ULP.
Proof.
  unfold SUBSTEP_DT64.
  pose proof (round64_error SUBSTEP_DT ltac:(unfold SUBSTEP_DT; lra)). lra.
Qed.

Lemma MAX_FRAME_DT64_near :
  MAX_FRAME_DT - HALF_ULP <= MAX_FRAME_DT64 <= MAX_FRAME_DT + HALF_ULP.
Proof.
  unfold MAX_FRAME_DT64.
  pose proof (round64_error MAX_FRAME_DT ltac:(unfold MAX_FRAME_DT; lra)). lra.
Qed.

Lemma safeDtOf_nonneg (dt : JsNumber) : 0 <= safeDtOf dt.
Proof.
  destruct dt; cbn; try lra. apply Rmax_l.
Qed.

Lemma frame_budget (dt : JsNumber) :
  0 <= Rmin (safeDtOf dt) MAX_FRAME_DT64 <= MAX_FRAME_DT + HALF_ULP.
Proof.
  pose proof (safeDtOf_nonneg dt) as H.
  pose proof MAX_FRAME_DT64_near as Hm. pose proof HALF_ULP_small as He.
  unfold MAX_FRAME_DT in *. split.
  - apply Rmin_glb; lra.
  - eapply Rle_trans; [apply Rmin_r | lra].
Qed.

(** One iteration: the sub-step is positive and at most what remains; what
    is left for the next iteration is not negative, at most half a unit in
    the last place from the exact difference, and exactly 0 when the
    sub-step took all that remained. *)
Lemma next_remaining (remaining : R) :
  0 < remaining < 1 / 16 ->
  let stepDt := Rmin remaining SUBSTEP_DT64 in
  0 < stepDt <= remaining /\
  0 <= round64 (remaining - stepDt) <= remaining /\
  - HALF_ULP <= round64 (remaining - stepDt) - (remaining - stepDt) <= HALF_ULP /\
  (remaining <= SUBSTEP_DT64 -> stepDt = remaining /\ round64 (remaining - stepDt) = 0).
Proof.
  intros Hr stepDt.
  pose proof SUBSTEP_DT64_near as Hs. pose proof HALF_ULP_small as He.
  unfold SUBSTEP_DT in Hs.
  assert (Hstep : 0 < stepDt <= remaining).
  { subst stepDt. unfold Rmin. destruct (Rle_dec remaining SUBSTEP_DT64); lra. }
  assert (Hlast : remaining <= SUBSTEP_DT64 ->
                  stepDt = remaining /\ round64 (remaining - stepDt) = 0).
  { intros Hle. assert (Heq : stepDt = remaining) by (apply Rmin_left; exact Hle).
    split; [exact Heq |]. rewrite Heq.
    replace (remaining - remaining) with 0 by ring. apply round64_0. }
  pose proof (round64_nonneg (remaining - stepDt) ltac:(lra)) as Hnn.
  pose proof (round64_error (remaining - stepDt) ltac:(lra)) as Herr.
  repeat split; try lra; try apply Hlast; auto.
  destruct (Rle_dec remaining SUBSTEP_DT64) as [Hle | Hgt].
  - destruct (Hlast Hle) as [_ ->]. lra.
  - assert (stepDt = SUBSTEP_DT64) by (apply Rmin_right; lra). lra.
Qed.

Lemma substepLoop_S (fuel : nat) noise remaining st d E :
  substepLoop (S fuel) noise remaining st d E
  = if Rlt_dec 0 remaining then
      let stepDt := Rmin remaining SUBSTEP_DT64 in
      let st' := tickPulse stepDt st in
      let E' := computeElectricField st' in
      match substepLoop fuel (fun n => noise (S n))
                        (round64 (remaining - stepDt)) st'
                        (integrateStep stepDt E' (noise O) st' d) E' with
      | Some o =>
          Some (mkOutcome (out_state o) (out_drop o) (out_E o) (out_remaining o)
                  (mkCall remaining stepDt E' st' (noise O) :: out_calls o))
      | None => None
      end
    else Some (mkOutcome st d E remaining []).
Proof. reflexivity. Qed.

Lemma substepLoop_done (fuel : nat) noise remaining st d E :
  remaining <= 0 ->
  substepLoop fuel noise remaining st d E = Some (mkOutcome st d E remaining []).
Proof.
  intros H. destruct fuel; cbn [substepLoop];
    destruct (Rlt_dec 0 remaining); try lra; reflexivity.
Qed.

(** Every iteration but the last takes [SUBSTEP_DT64] and leaves at most
    [remaining - SUBSTEP_DT64 + HALF_ULP]: with [remaining] at most
    [SUBSTEP_DT64 + n * (SUBSTEP_DT64 - HALF_ULP)], [n + 1] iterations are
    enough. *)
Lemma substepLoop_returns (n : nat) :
  forall noise remaining st d E,
    remaining < 1 / 16 ->
    remaining <= SUBSTEP_DT64 + INR n * (SUBSTEP_DT64 - HALF_ULP) ->
    exists o, substepLoop (S n) noise remaining st d E = Some o.
Proof.
  pose proof SUBSTEP_DT64_near as Hs. pose proof HALF_ULP_small as He.
  unfold SUBSTEP_DT in Hs.
  induction n as [| n IH]; intros noise remaining st d E Hsmall Hle;
    rewrite substepLoop_S;
    (destruct (Rlt_dec 0 remaining) as [Hpos | Hpos]; [| eauto]);
    cbv zeta;
    destruct (next_remaining remaining ltac:(lra)) as (Hstep & Hnext & Herr & Hlast).
  - cbn [INR] in Hle. destruct Hlast as [_ ->]; [lra |].
    rewrite substepLoop_done by lra. eauto.
  - destruct (Rle_dec remaining SUBSTEP_DT64) as [Hfit | Hfit].
    + destruct Hlast as [_ ->]; [exact Hfit |].
      rewrite substepLoop_done by lra. eauto.
    + assert (Hfull : Rmin remaining SUBSTEP_DT64 = SUBSTEP_DT64)
        by (apply Rmin_right; lra).
      rewrite Hfull in *.
      destruct (IH (fun i => noise (S i)) (round64 (remaining - SUBSTEP_DT64))
                   (tickPulse SUBSTEP_DT64 st)
                   (integrateStep SUBSTEP_DT64
                      (computeElectricField (tickPulse SUBSTEP_DT64 st))
                      (noise O) (tickPulse SUBSTEP_DT64 st) d)
                   (computeElectricField (tickPulse SUBSTEP_DT64 st)))
        as [o Ho].
      * lra.
      * rewrite S_INR in Hle. lra.
      * rewrite Ho. eauto.
Qed.

Lemma substepLoop_more_fuel (fuel : nat) :
  forall noise remaining st d E o,
    substepLoop fuel noise remaining st d E = Some o ->
    substepLoop (S fuel) noise remaining st d E = Some o.
Proof.
  induction fuel as [| fuel IH]; intros noise remaining st d E o H.
  - cbn [substepLoop] in *.
    destruct (Rlt_dec 0 remaining); [discriminate | exact H].
  - rewrite substepLoop_S in H. rewrite (substepLoop_S (S fuel)).
    destruct (Rlt_dec 0 remaining); [| exact H].
    cbv zeta in *.
    destruct (substepLoop fuel _ _ _ _ _) as [o' |] eqn:Ho; [| discriminate].
    apply IH in Ho. rewrite Ho. exact H.
Qed.

Lemma substepLoop_fuel_mono (fuel fuel' : nat) noise remaining st d E o :
  (fuel <= fuel')%nat ->
  substepLoop fuel noise remaining st d E = Some o ->
  substepLoop fuel' noise remaining st d E = Some o.
Proof.
  induction 1 as [| m Hm IH]; intros H; [exact H |].
  apply substepLoop_more_fuel. auto.
Qed.

(** What a run of the loop that returns has done. *)
Lemma substepLoop_calls (fuel : nat) :
  forall noise remaining st d E o,
    0 <= remaining < 1 / 16 ->
    substepLoop fuel noise remaining st d E = Some o ->
    out_remaining o = 0 /\
    consecutive remaining 0 st (out_calls o) /\
    - (INR (length (out_calls o)) * HALF_ULP)
      <= totalDt (out_calls o) - remaining
      <= INR (length (out_calls o)) * HALF_ULP /\
    out_drop o = replay (out_calls o) d /\
    (length (out_calls o) <= fuel)%nat.
Proof.
  pose proof HALF_ULP_small as He.
  induction fuel as [| fuel IH]; intros noise remaining st d E o Hnn H.
  - cbn [substepLoop] in H.
    destruct (Rlt_dec 0 remaining) as [Hpos | Hpos]; [discriminate |].
    injection H as <-. cbn. repeat split; try lra; auto.
  - rewrite substepLoop_S in H.
    destruct (Rlt_dec 0 remaining) as [Hpos | Hpos].
    + cbv zeta in H.
      destruct (next_remaining remaining ltac:(lra))
        as (Hstep & Hnext & Herr & _).
      set (stepDt := Rmin remaining SUBSTEP_DT64) in *.
      destruct (substepLoop fuel _ _ _ _ _) as [o' |] eqn:Ho; [| discriminate].
      injection H as <-.
      apply IH in Ho; [| lra].
      destruct Ho as (Hrem & Hcons & Htot & Hdrop & Hlen).
      cbn [out_remaining out_calls out_drop consecutive totalDt fold_right
           call_remaining call_dt call_E call_state call_sample length].
      fold (totalDt (out_calls o')). rewrite S_INR.
      repeat split; auto; try lra. lia.
    + injection H as <-. cbn. repeat split; try lra; auto; lia.
Qed.

Lemma consecutive_last (front : list Call) :
  forall start st c,
    consecutive start 0 st (front ++ [c]) ->
    0 < call_remaining c /\
    call_dt c = Rmin (call_remaining c) SUBSTEP_DT64 /\
    round64 (call_remaining c - call_dt c) = 0.
Proof.
  induction front as [| c0 front IH]; intros start st c H; cbn in H.
  - destruct H as (Hr & Hpos & Hdt & _ & _ & Hstop).
    rewrite Hr. split; [lra | split; [exact Hdt | exact Hstop]].
  - destruct H as (_ & _ & _ & _ & _ & Hrest). eapply IH; eauto.
Qed.

(** A frame that fits in one sub-step is one call, of the whole duration. *)
Lemma consecutive_single (start : R) (st : State) (calls : list Call) :
  0 < start <= SUBSTEP_DT64 ->
  consecutive start 0 st calls ->
  length calls = 1%nat /\ totalDt calls = start.
Proof.
  intros [Hpos Hfit] H. destruct calls as [| c rest]; cbn in H; [lra |].
  destruct H as (_ & _ & Hdt & _ & _ & Hrest).
  rewrite Hdt, Rmin_left in Hrest by exact Hfit.
  replace (start - start) with 0 in Hrest by ring. rewrite round64_0 in Hrest.
  destruct rest as [| c' rest]; [| cbn in Hrest; lra].
  cbn. rewrite Hdt, Rmin_left by exact Hfit. split; [reflexivity | ring].
Qed.

(** 91 iterations are enough for a frame: 90 whole sub-steps leave at most
    [1/20 - 90/1800] and the rounding errors, which is less than one
    sub-step. *)
Lemma update_returns (noise : nat -> R) (dt : JsNumber) (st : State) (d : Drop) :
  exists o, update 91 noise dt st d = Some o.
Proof.
  unfold update; cbv zeta.
  destruct (negb (running st)); [eauto |].
  destruct (Req_dec_T _ 0); [eauto |].
  pose proof (frame_budget dt) as Hb. pose proof SUBSTEP_DT64_near as Hs.
  pose proof HALF_ULP_small as He. unfold MAX_FRAME_DT, SUBSTEP_DT in *.
  apply substepLoop_returns; [lra |].
  replace (INR 90) with 90 by (cbn; lra). lra.
Qed.

Lemma update_fuel_mono (fuel : nat) noise dt st d o :
  (91 <= fuel)%nat ->
  update 91 noise dt st d = Some o -> update fuel noise dt st d = Some o.
Proof.
  unfold update; cbv zeta. intros Hf.
  destruct (negb (running st)); [auto |].
  destruct (Req_dec_T _ 0); [auto |].
  now apply substepLoop_fuel_mono.
Qed.

Lemma update_running_calls (noise : nat -> R) (dt : JsNumber) (st : State)
    (d : Drop) (o : Outcome) :
  running st = true ->
  update 91 noise dt st d = Some o ->
  out_remaining o = 0 /\
  consecutive (Rmin (safeDtOf dt) MAX_FRAME_DT64) 0 st (out_calls o) /\
  - (INR (length (out_calls o)) * HALF_ULP)
    <= totalDt (out_calls o) - Rmin (safeDtOf dt) MAX_FRAME_DT64
    <= INR (length (out_calls o)) * HALF_ULP /\
  out_drop o = replay (out_calls o) d /\
  (length (out_calls o) <= 91)%nat.
Proof.
  intros Hrun. unfold update; cbv zeta. rewrite Hrun. cbn [negb].
  destruct (Req_dec_T _ 0) as [Hz | Hz].
  - intros H. injection H as <-. cbn. rewrite Hz.
    repeat split; auto; try lra. lia.
  - apply substepLoop_calls.
    pose proof (frame_budget dt) as Hb. pose proof HALF_ULP_small as He.
    unfold MAX_FRAME_DT in Hb. lra.
Qed.

(** C9, amended.  While running, one call of [update] makes at most 91
    calls of [integrateStep], one per sub-step.  The calls are consecutive:
    each has the duration [min(remaining, SUBSTEP_DT)], is made on the state
    left by the pulse-timer lines, with the field recomputed from that
    state, and the drop left by [update] is the drop after these calls.
    [safeDt] is 0 for a non-finite or negative frame duration and the
    duration itself otherwise.  The durations add up to
    [min(safeDt, MAX_FRAME_DT)] up to the rounding of [remaining -= stepDt],
    at most [2^-58] s for each sub-step, and exactly when the frame fits in
    one sub-step; the two constants are within [2^-58] of [1/1800] and
    [1/20]. *)
Theorem update_substeps (fuel : nat) (noise : nat -> R) (dt : JsNumber)
    (st : State) (d : Drop) :
  running st = true ->
  (91 <= fuel)%nat ->
  let total := Rmin (safeDtOf dt) MAX_FRAME_DT64 in
  exists o,
    update fuel noise dt st d = Some o /\
    (Number_isFinite dt = false -> safeDtOf dt = 0) /\
    (forall x, dt = Finite x -> safeDtOf dt = Rmax 0 x) /\
    Rabs (SUBSTEP_DT64 - 1 / 1800) <= HALF_ULP /\
    Rabs (MAX_FRAME_DT64 - 1 / 20) <= HALF_ULP /\
    (length (out_calls o) <= 91)%nat /\
    Rabs (totalDt (out_calls o) - total)
      <= INR (length (out_calls o)) * HALF_ULP /\
    (total <= SUBSTEP_DT64 -> totalDt (out_calls o) = total) /\
    consecutive total 0 st (out_calls o) /\
    out_drop o = replay (out_calls o) d.
Proof.
  intros Hrun Hfuel total.
  destruct (update_returns noise dt st d) as [o Ho].
  exists o. split; [now apply update_fuel_mono |].
  destruct (update_running_calls _ _ _ _ _ Hrun Ho) as (_ & Hc & Ht & Hd & Hl).
  fold total in Hc, Ht.
  pose proof SUBSTEP_DT64_near as Hs. pose proof MAX_FRAME_DT64_near as Hm.
  unfold SUBSTEP_DT, MAX_FRAME_DT in *.
  repeat split; auto.
  - destruct dt; cbn; intros; try discriminate; reflexivity.
  - intros x ->. reflexivity.
  - apply Rabs_le. lra.
  - apply Rabs_le. lra.
  - apply Rabs_le. lra.
  - intros Hfit. pose proof (frame_budget dt) as [Hnn _]. fold total in Hnn.
    destruct (Req_dec_T total 0) as [Hz | Hz].
    + rewrite Hz in Hc |- *.
      destruct (out_calls o); [reflexivity | cbn in Hc; lra].
    + eapply consecutive_single; [| exact Hc]. lra.
Qed.

Lemma update_substeps_default :
  running state0 = true /\ (91 <= 91)%nat /\
  exists o,
    update 91 (fun _ => 0) (Finite (1 / 60)) state0 dropBoot = Some o /\
    (length (out_calls o) <= 91)%nat /\
    out_drop o = replay (out_calls o) dropBoot.
Proof.
  split; [reflexivity | split; [lia |]].
  destruct (update_substeps 91 (fun _ => 0) (Finite (1 / 60)) state0 dropBoot
              eq_refl (le_n 91))
    as (o & Ho & _ & _ & _ & _ & Hl & _ & _ & _ & Hd).
  exists o. split; [exact Ho | split; [exact Hl | exact Hd]].
Defined.

Lemma consecutive_nil_0 (st : State) (calls : list Call) :
  consecutive 0 0 st calls -> calls = [].
Proof.
  destruct calls as [| c rest]; [reflexivity |]. cbn [consecutive]. lra.
Qed.

Lemma consecutive_cons (start : R) (st : State) (calls : list Call) :
  0 < start ->
  consecutive start 0 st calls ->
  exists c rest,
    calls = c :: rest /\ call_dt c = Rmin start SUBSTEP_DT64 /\
    consecutive (round64 (start - Rmin start SUBSTEP_DT64)) 0 (call_state c) rest.
Proof.
  intros Hpos H. destruct calls as [| c rest]; cbn [consecutive] in H; [lra |].
  destruct H as (_ & _ & Hdt & _ & _ & Hrest). rewrite Hdt in Hrest.
  exists c, rest. auto.
Qed.

(** The claim C9 as written fails: the sub-steps of a frame need not add
    up to its duration.  A frame of [1/512] s, a double below the limit: the
    first subtraction, [1/512 - SUBSTEP_DT], is a tie between two doubles
    and loses [2^-63]; the frame makes three whole sub-steps and a fourth of
    [5284223562781380 * 2^-64] s, which add up to [1/512 - 2^-63], not to
    [min(1/512, MAX_FRAME_DT) = 1/512]. *)
Lemma update_total_inexact :
  exists o,
    update 91 (fun _ => 0) (Finite (1 / 512)) state0 dropBoot = Some o /\
    map call_dt (out_calls o)
    = [5124095576030431 / 9223372036854775808;
       5124095576030431 / 9223372036854775808;
       5124095576030431 / 9223372036854775808;
       5284223562781380 / 18446744073709551616] /\
    totalDt (out_calls o) = 1 / 512 - / 9223372036854775808 /\
    Rmin (safeDtOf (Finite (1 / 512))) MAX_FRAME_DT64 = 1 / 512 /\
    totalDt (out_calls o) <> Rmin (safeDtOf (Finite (1 / 512))) MAX_FRAME_DT64.
Proof.
  destruct (update_returns (fun _ => 0) (Finite (1 / 512)) state0 dropBoot)
    as [o Ho].
  exists o. split; [exact Ho |].
  assert (Hrun : running state0 = true) by reflexivity.
  destruct (update_running_calls _ _ _ _ _ Hrun Ho) as (_ & Hc & _).
  assert (Hmin : Rmin (safeDtOf (Finite (1 / 512))) MAX_FRAME_DT64 = 1 / 512).
  { cbn [safeDtOf]. rewrite Rmax_right by lra. apply Rmin_left.
    rewrite MAX_FRAME_DT64_value. lra. }
  rewrite Hmin in *.
  apply consecutive_cons in Hc; [| lra].
  destruct Hc as (c1 & l1 & Hl1 & Hd1 & H1).
  rewrite SUBSTEP_DT64_value in Hd1, H1.
  rewrite Rmin_right in Hd1, H1 by lra.
  rewrite (round64_binade _ 9 6445151466725776) in H1;
    [| lia | cbn [pow plus]; lra
     | right; left; split; [cbn [pow plus]; lra | reflexivity]].
  apply consecutive_cons in H1; [| cbn [pow plus]; lra].
  destruct H1 as (c2 & l2 & Hl2 & Hd2 & H2).
  rewrite SUBSTEP_DT64_value in Hd2, H2.
  rewrite Rmin_right in Hd2, H2 by (cbn [pow plus]; lra).
  rewrite (round64_binade _ 10 7766207357421121) in H2;
    [| lia | cbn [pow plus]; lra | left; cbn [pow plus]; lra].
  apply consecutive_cons in H2; [| cbn [pow plus]; lra].
  destruct H2 as (c3 & l3 & Hl3 & Hd3 & H3).
  rewrite SUBSTEP_DT64_value in Hd3, H3.
  rewrite Rmin_right in Hd3, H3 by (cbn [pow plus]; lra).
  rewrite (round64_binade _ 11 5284223562781380) in H3;
    [| lia | cbn [pow plus]; lra | left; cbn [pow plus]; lra].
  apply consecutive_cons in H3; [| cbn [pow plus]; lra].
  destruct H3 as (c4 & l4 & Hl4 & Hd4 & H4).
  rewrite SUBSTEP_DT64_value in Hd4, H4.
  rewrite Rmin_left in Hd4, H4 by (cbn [pow plus]; lra).
  rewrite Rminus_diag, round64_0 in H4.
  apply consecutive_nil_0 in H4. subst l4 l3 l2 l1. rewrite Hl1.
  assert (Htot : totalDt [c1; c2; c3; c4] = 1 / 512 - / 9223372036854775808).
  { unfold totalDt. cbn [fold_right]. rewrite Hd1, Hd2, Hd3, Hd4.
    cbn [pow plus]. lra. }
  split.
  - cbn [map]. rewrite Hd1, Hd2, Hd3, Hd4. repeat f_equal.
    cbn [pow plus]. lra.
  - split; [exact Htot |]. split; [reflexivity |]. rewrite Htot. lra.
Qed.

(** The loop on real numbers and the loop on units make the same
    sub-steps. *)
Lemma substepLoop_units (fuel : nat) :
  forall noise remaining st d E,
    (0 <= remaining < 2 ^ 59)%Z ->
    option_map (fun o => map call_dt (out_calls o))
               (substepLoop fuel noise (fromUnits remaining) st d E)
    = option_map (map fromUnits) (substepUnits fuel remaining).
Proof.
  induction fuel as [| fuel IH]; intros noise remaining st d E Hr.
  - cbn [substepLoop substepUnits].
    destruct (Rlt_dec 0 (fromUnits remaining)) as [Hpos | Hpos];
      destruct (Z.ltb_spec 0 remaining) as [Hz | Hz]; try reflexivity.
    + exfalso. rewrite <- fromUnits_0 in Hpos. apply fromUnits_lt in Hpos. lia.
    + exfalso. apply Hpos. rewrite <- fromUnits_0. now apply fromUnits_lt.
  - rewrite substepLoop_S. cbn [substepUnits].
    destruct (Rlt_dec 0 (fromUnits remaining)) as [Hpos | Hpos];
      destruct (Z.ltb_spec 0 remaining) as [Hz | Hz]; try reflexivity.
    + cbv zeta.
      set (step := Z.min remaining SUBSTEP_UNITS).
      assert (Hstep : Rmin (fromUnits remaining) SUBSTEP_DT64 = fromUnits step).
      { subst step. rewrite fromUnits_min, fromUnits_SUBSTEP. reflexivity. }
      rewrite Hstep.
      assert (Hstep0 : (0 < step <= remaining)%Z).
      { subst step. unfold SUBSTEP_UNITS. lia. }
      assert (Hnext : round64 (fromUnits remaining - fromUnits step)
                      = fromUnits (roundUnits (remaining - step))).
      { rewrite <- fromUnits_sub. apply roundUnits_correct. lia. }
      assert (Hbound : (0 <= roundUnits (remaining - step) < 2 ^ 59)%Z).
      { assert (Hsmall : 0 < fromUnits remaining < 1 / 16).
        { split; [exact Hpos |]. rewrite <- fromUnits_sixteenth.
          apply fromUnits_lt. lia. }
        destruct (next_remaining _ Hsmall) as (_ & [Hn0 Hn1] & _).
        rewrite Hstep, Hnext in Hn0, Hn1.
        rewrite <- fromUnits_0 in Hn0.
        apply fromUnits_le in Hn0. apply fromUnits_le in Hn1. lia. }
      rewrite Hnext.
      specialize (IH (fun n => noise (S n)) (roundUnits (remaining - step))
                     (tickPulse (fromUnits step) st)
                     (integrateStep (fromUnits step)
                        (computeElectricField (tickPulse (fromUnits step) st))
                        (noise O) (tickPulse (fromUnits step) st) d)
                     (computeElectricField (tickPulse (fromUnits step) st))
                     Hbound).
      destruct (substepLoop fuel _ _ _ _ _) as [o |];
        destruct (substepUnits fuel _) as [l |]; cbn [option_map] in *;
        try discriminate; [| reflexivity].
      injection IH as IH. cbn [out_calls map call_dt]. rewrite IH. reflexivity.
    + exfalso. rewrite <- fromUnits_0 in Hpos. apply fromUnits_lt in Hpos. lia.
    + exfalso. apply Hpos. rewrite <- fromUnits_0. now apply fromUnits_lt.
Qed.

Lemma totalDt_map (calls : list Call) :
  totalDt calls = fold_right Rplus 0 (map call_dt calls).
Proof.
  unfold totalDt. induction calls as [| c calls IH]; cbn; [reflexivity |].
  now rewrite IH.
Qed.

Lemma fromUnits_sum (l : list Z) :
  fold_right Rplus 0 (map fromUnits l) = fromUnits (fold_right Z.add 0%Z l).
Proof.
  induction l as [| n l IH]; cbn [map fold_right]; [now rewrite fromUnits_0 |].
  now rewrite IH, fromUnits_add.
Qed.

(** A frame of one second, cut to [MAX_FRAME_DT]: with a bound of 90
    iterations the loop has not finished; it makes 91 sub-steps, and their
    durations add up to [968 * 2^-63] s more than [MAX_FRAME_DT]. *)
Lemma update_capped_frame (noise : nat -> R) (st : State) (d : Drop) :
  running st = true ->
  update 90 noise (Finite 1) st d = None /\
  exists o,
    update 91 noise (Finite 1) st d = Some o /\
    length (out_calls o) = 91%nat /\
    totalDt (out_calls o) = MAX_FRAME_DT64 + 968 / 2 ^ 63.
Proof.
  intros Hrun.
  assert (Hmin : Rmin (safeDtOf (Finite 1)) MAX_FRAME_DT64 = fromUnits MAX_FRAME_UNITS).
  { rewrite fromUnits_MAX_FRAME. cbn [safeDtOf]. rewrite Rmax_right by lra.
    apply Rmin_right. rewrite MAX_FRAME_DT64_value. lra. }
  assert (Hnz : fromUnits MAX_FRAME_UNITS <> 0).
  { rewrite fromUnits_MAX_FRAME, MAX_FRAME_DT64_value. lra. }
  assert (Hr : (0 <= MAX_FRAME_UNITS < 2 ^ 59)%Z) by (unfold MAX_FRAME_UNITS; lia).
  split.
  - unfold update; cbv zeta. rewrite Hrun, Hmin. cbn [negb].
    destruct (Req_dec_T _ 0) as [Hz | _]; [contradiction |].
    pose proof (substepLoop_units 90 noise MAX_FRAME_UNITS st d
                  (computeElectricField st) Hr) as H.
    replace (substepUnits 90 MAX_FRAME_UNITS) with (@None (list Z)) in H
      by (vm_compute; reflexivity).
    destruct (substepLoop 90 _ _ _ _ _); [discriminate | reflexivity].
  - destruct (update_returns noise (Finite 1) st d) as [o Ho].
    exists o. split; [exact Ho |].
    unfold update in Ho; cbv zeta in Ho. rewrite Hrun, Hmin in Ho.
    cbn [negb] in Ho.
    destruct (Req_dec_T _ 0) as [Hz | _]; [contradiction |].
    pose proof (substepLoop_units 91 noise MAX_FRAME_UNITS st d
                  (computeElectricField st) Hr) as H.
    rewrite Ho in H. cbn [option_map] in H.
    destruct (substepUnits 91 MAX_FRAME_UNITS) as [l |] eqn:Hl; [| discriminate].
    injection H as H.
    assert (Hlen : length l = 91%nat).
    { apply (f_equal (option_map (@length Z))) in Hl. vm_compute in Hl.
      now injection Hl. }
    assert (Hsum : fold_right Z.add 0%Z l = (MAX_FRAME_UNITS + 968)%Z).
    { apply (f_equal (option_map (fold_right Z.add 0%Z))) in Hl.
      vm_compute in Hl. now injection Hl. }
    split.
    + rewrite <- (length_map call_dt), H, length_map. exact Hlen.
    + rewrite totalDt_map, H, fromUnits_sum, Hsum, fromUnits_add,
        fromUnits_MAX_FRAME.
      reflexivity.
Qed.

(** The same frame on the primitive numbers: the same four durations. *)
Lemma updateDurations_f64_small :
  option_map (map exact_f64) (updateDurations_f64 91 (1 / 512)%float)
  = Some [Qmake 5124095576030431 9223372036854775808;
          Qmake 5124095576030431 9223372036854775808;
          Qmake 5124095576030431 9223372036854775808;
          Qmake 5284223562781380 18446744073709551616].
Proof. vm_compute. reflexivity. Qed.

(** The frame of one second on the primitive numbers: 90 iterations are
    not enough, and the 91 sub-steps have the durations of the loop on
    units. *)
Lemma updateDurations_f64_capped :
  updateDurations_f64 90 1%float = None /\
  option_map (map (fun x => Qred (exact_f64 x))) (updateDurations_f64 91 1%float)
  = option_map (map (fun n => Qred (Qmake n 9223372036854775808)))
               (substepUnits 91 MAX_FRAME_UNITS) /\
  option_map (@length Z) (substepUnits 91 MAX_FRAME_UNITS) = Some 91%nat.
Proof. repeat split; vm_compute; reflexivity. Qed.

(** C10.  For every frame duration, finite or not, [update] returns, with
    any bound of at least 91 on the iterations of the loop, and the loop
    runs at most 91 times.  When the loop is entered the remaining duration
    is strictly positive; every iteration starts with a positive remaining
    duration and takes [min(remaining, SUBSTEP_DT)] from it; after the last
    iteration the remaining duration is exactly zero. *)
Theorem update_terminates (noise : nat -> R) (dt : JsNumber) (st : State)
    (d : Drop) :
  exists o,
    (forall fuel, (91 <= fuel)%nat -> update fuel noise dt st d = Some o) /\
    (length (out_calls o) <= 91)%nat /\
    (running st = true ->
       out_remaining o = 0 /\
       consecutive (Rmin (safeDtOf dt) MAX_FRAME_DT64) 0 st (out_calls o) /\
       (Rmin (safeDtOf dt) MAX_FRAME_DT64 <> 0 ->
          0 < Rmin (safeDtOf dt) MAX_FRAME_DT64 /\ out_calls o <> [])) /\
    (forall front c, out_calls o = front ++ [c] ->
       0 < call_remaining c /\
       call_dt c = Rmin (call_remaining c) SUBSTEP_DT64 /\
       round64 (call_remaining c - call_dt c) = 0).
Proof.
  destruct (update_returns noise dt st d) as [o Ho].
  exists o. split; [intros fuel Hf; now apply update_fuel_mono |].
  destruct (running st) eqn:Hrun.
  - destruct (update_running_calls _ _ _ _ _ Hrun Ho) as (Hr & Hc & _ & _ & Hl).
    split; [exact Hl | split].
    + intros _. split; [exact Hr | split; [exact Hc |]].
      intros Hnz. pose proof (frame_budget dt) as [Hnn _].
      split; [lra |]. intros Hnil. rewrite Hnil in Hc. cbn in Hc. lra.
    + intros front c Hcalls. rewrite Hcalls in Hc.
      eapply consecutive_last; eauto.
  - unfold update in Ho; cbv zeta in Ho. rewrite Hrun in Ho. cbn [negb] in Ho.
    injection Ho as <-. cbn [out_calls length].
    split; [lia | split; [discriminate |]].
    intros front c Hnil. destruct front; discriminate.
Qed.

(** A frame of one second: the loop is entered, and leaves nothing. *)
Lemma update_terminates_capped :
  exists o,
    update 91 (fun _ => 0) (Finite 1) state0 dropBoot = Some o /\
    out_calls o <> [] /\
    out_remaining o = 0.
Proof.
  destruct (update_terminates (fun _ => 0) (Finite 1) state0 dropBoot)
    as (o & Hu & _ & Hrun & _).
  destruct (Hrun eq_refl) as (Hrem & _ & Hin).
  exists o. split; [apply Hu; lia |]. split; [| exact Hrem].
  apply Hin.
  pose proof MAX_FRAME_DT64_near as Hm. pose proof HALF_ULP_small as He.
  unfold MAX_FRAME_DT in Hm. cbn [safeDtOf].
  rewrite Rmax_right by lra.
  unfold Rmin. destruct (Rle_dec 1 MAX_FRAME_DT64); lra.
Defined.

(** ** Steps without noise and without field *)

Lemma bounce_none (maxY : R) (d : Drop) :
  0 <= y d <= maxY -> bounceUpper maxY (bounceLower d) = d.
Proof.
  intros H. unfold bounceUpper, bounceLower.
  destruct (Rlt_dec (y d) 0); [lra |].
  destruct (Rlt_dec maxY (y d)); [lra | reflexivity].
Qed.

Lemma noiseForce_off (dt sample : R) (st : State) (d : Drop) :
  noiseBoost st = 0 \/ temperatureK st = 0 -> noiseForce dt sample st d = 0.
Proof.
  unfold noiseForce, noiseStd. intros [-> | ->]; [ring |].
  replace (2 * BOLTZMANN * 0 * dragCoeff (refreshed st d) / Rmax dt 1e-6)
    with 0 by (unfold Rdiv; ring).
  rewrite sqrt_0. ring.
Qed.

Lemma eulerVelocity_quiet (dt E sample : R) (st : State) (d : Drop) :
  0 < mass d -> 0 < dragCoeff d ->
  electricForce E d = 0 -> noiseForce dt sample st d = 0 ->
  eulerVelocity dt E sample st d
  = velocity d + (gravity st - dragCoeff d / mass d * velocity d) * dt.
Proof.
  intros Hm Hc HE Hn. unfold eulerVelocity, netForce.
  rewrite (refreshed_valid st d Hc), HE, Hn. unfold gravityForce.
  field. lra.
Qed.

Lemma speedCap_quiet (E : R) (st : State) (d : Drop) :
  0 < mass d -> 0 < dragCoeff d -> 0 <= gravity st ->
  electricForce E d = 0 ->
  2 * (mass d * gravity st) <= 0.03 * dragCoeff d ->
  speedCap E st d = 0.03.
Proof.
  intros Hm Hc Hg HE Hvt. unfold speedCap, vtAnalytic, BASE_MAX_SPEED.
  rewrite (refreshed_valid st d Hc), HE. unfold gravityForce.
  destruct (Rlt_dec 0 (dragCoeff d)); [| lra].
  assert (Hq : 0 <= (mass d * gravity st + 0) / dragCoeff d <= 0.015).
  { split.
    - apply le_div_of_mul_le; [lra | nra].
    - apply div_le_of_le_mul; lra. }
  rewrite Rabs_right by lra.
  rewrite Rmax_right by (apply Rmax_lub; lra). lra.
Qed.

Lemma integrateStep_inside (dt E sample : R) (st : State) (d : Drop) :
  0 < dragCoeff d ->
  0 <= y d + cappedVelocity dt E sample st d * dt <= plateGapMeters st ->
  integrateStep dt E sample st d
  = place d (cappedVelocity dt E sample st d)
            (y d + cappedVelocity dt E sample st d * dt).
Proof.
  intros Hc Hin. rewrite integrateStep_stages.
  unfold moved, movedY. rewrite (refreshed_valid st d Hc).
  apply bounce_none. exact Hin.
Qed.

Lemma PI_gt_3 : 3 < PI.
Proof. pose proof PI2_3_2. lra. Qed.

Lemma clamp_nonneg (v cap : R) : 0 <= v -> 0 <= cap -> 0 <= clamp v (- cap) cap.
Proof.
  intros Hv Hc. unfold clamp. rewrite Rmax_left by lra. apply Rmin_glb; lra.
Qed.

(** The coefficients at the default radius and viscosity: the drag time
    constant [mass / dragCoeff] is less than a tenth of the sub-step. *)
Lemma default_coefficients_stiff (st : State) (d : Drop) :
  radiusMicrons st = 0.9 -> viscosity st = 1.8e-5 ->
  0 < mass (recomputeDropCoefficients st d) /\
  0 < dragCoeff (recomputeDropCoefficients st d) /\
  10 * mass (recomputeDropCoefficients st d)
  <= dragCoeff (recomputeDropCoefficients st d) * SUBSTEP_DT.
Proof.
  intros Hr Hmu.
  split; [apply recomputed_mass_pos |].
  split; [apply recomputed_drag_pos; lra |].
  unfold recomputeDropCoefficients; cbn [mass dragCoeff].
  rewrite Hr, Hmu, effective_density. unfold Math_pow, SUBSTEP_DT.
  pose proof PI_gt_3 as Hpi.
  pose proof (slip_excess_pos (0.9 * 1e-6)) as Hlo.
  pose proof (slip_excess_le (0.9 * 1e-6)) as Hhi.
  rewrite Rmax_left in Hhi by lra.
  unfold AIR_MEAN_FREE_PATH, CUNNINGHAM_A, CUNNINGHAM_B in Hhi.
  set (slip := computeSlipCorrection (0.9 * 1e-6)) in *.
  assert (Hs : slip <= 1.12) by lra.
  cbn [pow]. rewrite Rmax_left by nra.
  replace (6 * PI * 1.8e-5 * (0.9 * 1e-6) / slip * (1 / 1800))
    with (6 * PI * 1.8e-5 * (0.9 * 1e-6) / 1800 / slip) by (field; lra).
  apply le_div_of_mul_le; [lra |]. nra.
Qed.

(** *** The trajectory at the default radius and viscosity, without noise
    and without field

    With [k = dragCoeff * dt / mass >= 10] the Euler update
    [v + (g - dragCoeff / mass * v) dt] overshoots: from the first step on
    the clamp alone decides the velocity, which alternates between the two
    ends of the speed cap. *)
Section QuietRun.

Variables (st : State) (base : Drop).
Hypothesis Hradius : radiusMicrons st = 0.9.
Hypothesis Hviscosity : viscosity st = 1.8e-5.
Hypothesis Hgravity : gravity st = 9.81.
Hypothesis Hgap : plateGapMeters st = 0.005.
Hypothesis Hquiet : noiseBoost st = 0 \/ temperatureK st = 0.

Let dS : Drop := recomputeDropCoefficients st base.

Lemma quiet_capped (v pos sample : R) :
  cappedVelocity SUBSTEP_DT 0 sample st (place dS v pos)
  = clamp (v + (9.81 - dragCoeff dS / mass dS * v) * SUBSTEP_DT) (-0.03) 0.03.
Proof.
  destruct (default_coefficients_stiff st base Hradius Hviscosity)
    as (Hm & Hc & Hk).
  fold dS in Hm, Hc, Hk.
  assert (HE : electricForce 0 (place dS v pos) = 0)
    by (unfold electricForce; ring).
  unfold cappedVelocity.
  rewrite speedCap_quiet; cbn [place setY setVelocity mass dragCoeff];
    try assumption; try lra.
  - rewrite eulerVelocity_quiet; cbn [place setY setVelocity mass dragCoeff velocity];
      try assumption; [| now apply noiseForce_off].
    rewrite Hgravity. f_equal. lra.
  - rewrite Hgravity. unfold SUBSTEP_DT in Hk. lra.
Qed.

Lemma quiet_ratio : 10 <= dragCoeff dS / mass dS * SUBSTEP_DT.
Proof.
  destruct (default_coefficients_stiff st base Hradius Hviscosity)
    as (Hm & Hc & Hk).
  fold dS in Hm, Hc, Hk.
  replace (dragCoeff dS / mass dS * SUBSTEP_DT)
    with (dragCoeff dS * SUBSTEP_DT / mass dS) by (field; lra).
  apply le_div_of_mul_le; lra.
Qed.

Lemma quiet_capped_next (k : nat) (sample : R) :
  cappedVelocity SUBSTEP_DT 0 sample st
    (place dS (scenarioVelocity k) (scenarioY k))
  = scenarioVelocity (S k).
Proof.
  rewrite quiet_capped. pose proof quiet_ratio as Hk.
  set (q := dragCoeff dS / mass dS) in *. unfold SUBSTEP_DT in *.
  destruct k as [| [| k]].
  - cbn [scenarioVelocity]. rewrite clamp_inside by lra. lra.
  - cbn [scenarioVelocity Nat.even]. apply clamp_below; [lra |]. nra.
  - change (scenarioVelocity (S (S k)))
      with (if Nat.even k then -0.03 else 0.03).
    change (scenarioVelocity (S (S (S k))))
      with (if Nat.even (S k) then -0.03 else 0.03).
    rewrite Nat.even_succ, <- Nat.negb_even.
    destruct (Nat.even k); cbn [negb].
    + apply clamp_above; [lra |]. nra.
    + apply clamp_below; [lra |]. nra.
Qed.

Lemma quiet_moved_next (k : nat) :
  scenarioY k + scenarioVelocity (S k) * SUBSTEP_DT = scenarioY (S k).
Proof.
  unfold SUBSTEP_DT. destruct k as [| [| k]].
  - cbn. lra.
  - cbn. lra.
  - change (scenarioVelocity (S (S (S k))))
      with (if Nat.even (S k) then -0.03 else 0.03).
    change (scenarioY (S (S k)))
      with (if Nat.even k
            then 0.005 * 0.35 + 9.81 / 1800 / 1800 - 0.03 / 1800
            else 0.005 * 0.35 + 9.81 / 1800 / 1800).
    change (scenarioY (S (S (S k))))
      with (if Nat.even (S k)
            then 0.005 * 0.35 + 9.81 / 1800 / 1800 - 0.03 / 1800
            else 0.005 * 0.35 + 9.81 / 1800 / 1800).
    rewrite Nat.even_succ, <- Nat.negb_even.
    destruct (Nat.even k); cbn [negb]; lra.
Qed.

Lemma scenarioY_inside (k : nat) : 0.0017 < scenarioY k < 0.0018.
Proof.
  destruct k as [| k]; [cbn; lra |].
  change (scenarioY (S k))
    with (if Nat.even (S k)
          then 0.005 * 0.35 + 9.81 / 1800 / 1800 - 0.03 / 1800
          else 0.005 * 0.35 + 9.81 / 1800 / 1800).
  destruct (Nat.even (S k)); lra.
Qed.

(** One sub-step takes the [k]-th point of the closed form to the next,
    whatever the random sample, and touches no plate. *)
Lemma quiet_step (k : nat) (sample : R) :
  integrateStep SUBSTEP_DT 0 sample st
    (place dS (scenarioVelocity k) (scenarioY k))
  = place dS (scenarioVelocity (S k)) (scenarioY (S k)).
Proof.
  destruct (default_coefficients_stiff st base Hradius Hviscosity)
    as (_ & Hc & _).
  fold dS in Hc.
  rewrite integrateStep_inside; cbn [place setY setVelocity dragCoeff y];
    rewrite ?quiet_capped_next, ?quiet_moved_next; try assumption.
  - reflexivity.
  - rewrite Hgap. pose proof (scenarioY_inside (S k)). lra.
Qed.

Lemma quiet_steps (n : nat) :
  forall k noise,
    steps n noise SUBSTEP_DT 0 st (place dS (scenarioVelocity k) (scenarioY k))
    = place dS (scenarioVelocity (n + k)) (scenarioY (n + k)).
Proof.
  induction n as [| n IH]; intros k noise; [reflexivity |].
  cbn [steps]. rewrite quiet_step, IH. now rewrite Nat.add_succ_r.
Qed.

End QuietRun.

(** *** The loop of the smoke test *)

(** [n] sub-steps before [TOTAL = 3]: the loop makes exactly [n] calls of
    [integrateStep], each with [step = SUBSTEP_DT]. *)
Lemma smokeLoop_steps (n : nat) :
  forall fuel noise t st d,
    (n <= fuel)%nat ->
    t = 3 - INR n * SUBSTEP_DT ->
    smokeLoop fuel noise 3 t st d
    = Some (3, steps n noise SUBSTEP_DT (computeElectricField st) st d).
Proof.
  induction n as [| n IH]; intros fuel noise t st d Hfuel Ht.
  - assert (Ht3 : t = 3) by (cbn in Ht; lra). clear Ht. subst t.
    destruct fuel; cbn [smokeLoop steps];
      destruct (Rlt_dec 3 3); try lra; reflexivity.
  - destruct fuel as [| fuel]; [lia |].
    rewrite S_INR in Ht. pose proof (pos_INR n) as Hn.
    unfold SUBSTEP_DT in Ht.
    cbn [smokeLoop steps]. destruct (Rlt_dec t 3) as [_ | Hge]; [| nra].
    cbv zeta.
    assert (Hstep : Rmin SUBSTEP_DT (3 - t) = SUBSTEP_DT).
    { apply Rmin_left. unfold SUBSTEP_DT. nra. }
    rewrite Hstep. apply IH; [lia |]. unfold SUBSTEP_DT. lra.
Qed.

Lemma INR_smokeSubsteps : INR smokeSubsteps = 5400.
Proof.
  unfold smokeSubsteps. rewrite mult_INR, !INR_IZR_INZ.
  change (IZR (Z.of_nat 3)) with 3. change (IZR (Z.of_nat 1800)) with 1800. lra.
Qed.

Lemma scenario_field (enabled : bool) :
  computeElectricField (stateScenario enabled) = 0.
Proof.
  unfold computeElectricField. destruct enabled; cbn; [| reflexivity].
  unfold Rdiv. ring.
Qed.

Lemma scenario_steps (enabled : bool) (noise : nat -> R) (k : nat) :
  steps k noise SUBSTEP_DT (computeElectricField (stateScenario enabled))
        (stateScenario enabled) (dropScenario enabled)
  = place (dropScenario enabled) (scenarioVelocity k) (scenarioY k).
Proof.
  rewrite scenario_field.
  change (dropScenario enabled)
    with (place (recomputeDropCoefficients (stateScenario enabled) drop0)
                (scenarioVelocity 0) (scenarioY 0)) at 1.
  rewrite (quiet_steps (stateScenario enabled) drop0); try reflexivity.
  - now rewrite Nat.add_0_r.
  - right. reflexivity.
Qed.

(** The scenario: where the smoke loop leaves the drop after 3 s. *)
Lemma scenario_run (enabled : bool) (noise : nat -> R) (fuel : nat) :
  (smokeSubsteps <= fuel)%nat ->
  smokeLoop fuel noise 3 0 (stateScenario enabled) (dropScenario enabled)
  = Some (3, place (dropScenario enabled) (-0.03)
                   (0.005 * 0.35 + 9.81 / 1800 / 1800 - 0.03 / 1800)).
Proof.
  intros Hfuel.
  rewrite (smokeLoop_steps smokeSubsteps); [| exact Hfuel |].
  - rewrite scenario_steps. reflexivity.
  - rewrite INR_smokeSubsteps. unfold SUBSTEP_DT. lra.
Qed.

Lemma scenario_terminal_velocity (enabled : bool) :
  0 < mass (dropScenario enabled) * 9.81 / dragCoeff (dropScenario enabled)
    <= 0.000545.
Proof.
  destruct (default_coefficients_stiff (stateScenario enabled) drop0
              eq_refl eq_refl) as (Hm & Hc & Hk).
  fold (dropScenario enabled) in Hm, Hc, Hk. unfold SUBSTEP_DT in Hk. split.
  - apply Rdiv_lt_0_compat; lra.
  - apply div_le_of_le_mul; lra.
Qed.

(** The claim C7 as written fails: in the scenario the smoke loop returns
    after 3 s with a velocity that is not within 1 percent of the terminal
    velocity [mass * g / dragCoeff] and with a position that is not 0. *)
Lemma scenario_not_at_rest :
  exists d',
    smokeLoop smokeSubsteps (fun _ => 0) 3 0
              (stateScenario false) (dropScenario false) = Some (3, d') /\
    ~ (Rabs (velocity d' - mass d' * 9.81 / dragCoeff d')
       <= 0.01 * Rabs (mass d' * 9.81 / dragCoeff d')) /\
    y d' <> 0.
Proof.
  eexists. split; [apply scenario_run; apply le_n |].
  cbn [place setY setVelocity y velocity mass dragCoeff].
  pose proof (scenario_terminal_velocity false) as Hvt.
  set (vt := mass (dropScenario false) * 9.81 / dragCoeff (dropScenario false)) in *.
  split; [| lra].
  rewrite Rabs_left by lra. rewrite (Rabs_right vt) by lra. lra.
Qed.

Lemma scenarioVelocity_capped (k : nat) : Rabs (scenarioVelocity k) <= 0.03.
Proof.
  apply Rabs_le. destruct k as [| [| k]]; cbn [scenarioVelocity]; try lra.
  destruct (Nat.even (S (S k))); lra.
Qed.

Lemma scenario_speedCap (enabled : bool) (v pos : R) :
  speedCap (computeElectricField (stateScenario enabled)) (stateScenario enabled)
           (place (dropScenario enabled) v pos) = 0.03.
Proof.
  destruct (default_coefficients_stiff (stateScenario enabled) drop0
              eq_refl eq_refl) as (Hm & Hc & Hk).
  fold (dropScenario enabled) in Hm, Hc, Hk. unfold SUBSTEP_DT in Hk.
  rewrite scenario_field.
  apply speedCap_quiet; cbn [place setY setVelocity mass dragCoeff gravity stateScenario];
    try assumption; try lra.
  unfold electricForce. ring.
Qed.

(** C7, amended.  In the scenario (0.9 um, 1.8e-5 Pa.s, 0 kV, 0 K, gap
    5 mm, from 35 percent of the gap at rest) the loop of the smoke test
    returns after exactly 5400 calls of [integrateStep] with [dt = 1/1800 s],
    whatever the random samples and the field switch.  The terminal velocity
    [mass * g / dragCoeff] is positive and at most 0.545 mm/s, so the speed
    cap of every sub-step is its floor [0.25 * 0.12 = 0.03 m/s]; after every
    sub-step the speed is at most that cap and the position lies between 0
    and the gap.  Gravity acts toward position [plateGapMeters]: the first
    sub-step increases the position.  Nothing is said on how close the
    velocity comes to the terminal velocity. *)
Theorem scenario_outcome (enabled : bool) (noise : nat -> R) (fuel : nat) :
  (smokeSubsteps <= fuel)%nat ->
  let st := stateScenario enabled in
  let d := dropScenario enabled in
  let run := fun k => steps k noise SUBSTEP_DT (computeElectricField st) st d in
  smokeLoop fuel noise 3 0 st d = Some (3, run smokeSubsteps) /\
  0 < mass d * gravity st / dragCoeff d <= 0.000545 /\
  (forall k, speedCap (computeElectricField st) st (run k) = 0.03) /\
  (forall k, Rabs (velocity (run k)) <= 0.03 /\
             0 <= y (run k) <= plateGapMeters st) /\
  y d < y (run 1%nat).
Proof.
  intros Hfuel st d run. subst st d run. cbv beta.
  split; [| split; [| split; [| split]]].
  - rewrite scenario_run by exact Hfuel. now rewrite scenario_steps.
  - apply scenario_terminal_velocity.
  - intros k. rewrite scenario_steps. apply scenario_speedCap.
  - intros k. rewrite scenario_steps. cbn [place setY setVelocity y velocity].
    split; [apply scenarioVelocity_capped |].
    pose proof (scenarioY_inside k). cbn [plateGapMeters stateScenario]. lra.
  - rewrite scenario_steps. cbn. lra.
Qed.

Lemma scenario_outcome_smoke :
  (smokeSubsteps <= smokeSubsteps)%nat /\
  Rabs (velocity (steps smokeSubsteps (fun _ => 0) SUBSTEP_DT
                        (computeElectricField (stateScenario false))
                        (stateScenario false) (dropScenario false)))
  <= 0.03.
Proof.
  split; [apply le_n |].
  destruct (scenario_outcome false (fun _ => 0) smokeSubsteps (le_n _))
    as (_ & _ & _ & Hk & _).
  apply (Hk smokeSubsteps).
Defined.

(** X1. In the scenario the explicit Euler update overshoots at every sub-step
    ([dragCoeff * dt / mass >= 10]): after the first sub-step the clamp alone
    sets the velocity, which alternates between the two ends of the speed cap
    while the position alternates between two points 1/60 mm apart.  After
    the 5400 sub-steps the velocity is -0.03 m/s and the position is
    [0.35 gap + (9.81/1800 - 0.03)/1800], about 1.736 mm. *)
Theorem scenario_alternates (enabled : bool) (noise : nat -> R) (k : nat) :
  let st := stateScenario enabled in
  let d := dropScenario enabled in
  let run := fun n => steps n noise SUBSTEP_DT (computeElectricField st) st d in
  velocity (run (2 * k + 2)%nat) = -0.03 /\
  velocity (run (2 * k + 3)%nat) = 0.03 /\
  y (run (2 * k + 2)%nat) = 0.005 * 0.35 + (9.81 / 1800 - 0.03) / 1800 /\
  y (run (2 * k + 3)%nat) = 0.005 * 0.35 + 9.81 / 1800 / 1800 /\
  velocity (run smokeSubsteps) = -0.03 /\
  y (run smokeSubsteps) = 0.005 * 0.35 + (9.81 / 1800 - 0.03) / 1800.
Proof.
  cbv zeta beta. rewrite !scenario_steps.
  cbn [place setY setVelocity y velocity].
  assert (He : Nat.even (2 * k + 2) = true).
  { rewrite Nat.even_add, Nat.even_mul. reflexivity. }
  assert (Ho : Nat.even (2 * k + 3) = false).
  { rewrite Nat.even_add, Nat.even_mul. reflexivity. }
  replace (2 * k + 2)%nat with (S (S (2 * k))) in * by lia.
  replace (2 * k + 3)%nat with (S (S (S (2 * k)))) in * by lia.
  change (scenarioVelocity (S (S (2 * k))))
    with (if Nat.even (S (S (2 * k))) then -0.03 else 0.03).
  change (scenarioVelocity (S (S (S (2 * k)))))
    with (if Nat.even (S (S (S (2 * k)))) then -0.03 else 0.03).
  change (scenarioY (S (S (2 * k))))
    with (if Nat.even (S (S (2 * k)))
          then 0.005 * 0.35 + 9.81 / 1800 / 1800 - 0.03 / 1800
          else 0.005 * 0.35 + 9.81 / 1800 / 1800).
  change (scenarioY (S (S (S (2 * k)))))
    with (if Nat.even (S (S (S (2 * k))))
          then 0.005 * 0.35 + 9.81 / 1800 / 1800 - 0.03 / 1800
          else 0.005 * 0.35 + 9.81 / 1800 / 1800).
  rewrite He, Ho.
  repeat split; try reflexivity; try lra.
  all: cbn; lra.
Qed.

(** *** Gravity only *)

Lemma free_fall_steps (noise : nat -> R) (k : nat) :
  steps k noise SUBSTEP_DT (computeElectricField stateFall) stateFall dropNeutral
  = place dropNeutral (scenarioVelocity k) (scenarioY k).
Proof.
  change (computeElectricField stateFall) with 0.
  change dropNeutral
    with (place dropNeutral (scenarioVelocity 0) (scenarioY 0)) at 1.
  unfold dropNeutral.
  rewrite (quiet_steps stateFall); try reflexivity.
  - now rewrite Nat.add_0_r.
  - left. reflexivity.
Qed.

(** The claim C6 as written fails: with the noise boost at 0, the field
    off, no charge and a positive mass, the first sub-step from rest takes
    the drop away from position 0. *)
Lemma free_fall_moves_away_from_0 :
  noiseBoost stateFall = 0 /\ fieldEnabled stateFall = false /\
  chargeCoulombs dropNeutral = 0 /\ 0 < mass dropNeutral /\
  y dropNeutral
  < y (integrateStep SUBSTEP_DT (computeElectricField stateFall) 0
                     stateFall dropNeutral).
Proof.
  repeat (split; [reflexivity |]).
  split; [apply recomputed_mass_pos |].
  change (integrateStep SUBSTEP_DT (computeElectricField stateFall) 0
                        stateFall dropNeutral)
    with (steps 1 (fun _ => 0) SUBSTEP_DT (computeElectricField stateFall)
                stateFall dropNeutral).
  rewrite free_fall_steps. cbn. lra.
Qed.

(** At the sub-step of 1/1800 s the motion is not monotone in the other
    direction either: the second sub-step takes the drop back. *)
Lemma free_fall_second_step_moves_back (noise : nat -> R) :
  y (steps 2 noise SUBSTEP_DT (computeElectricField stateFall) stateFall dropNeutral)
  < y (steps 1 noise SUBSTEP_DT (computeElectricField stateFall) stateFall dropNeutral).
Proof.
  rewrite !free_fall_steps. cbn. lra.
Qed.

(** C6, amended.  With the noise boost at 0, the field off, no charge,
    positive mass and drag coefficient, non-negative gravity, a drop that is
    not above the gap and does not move toward position 0, and a drop at
    rest or a sub-step for which the Euler update does not overshoot
    ([dragCoeff * dt <= mass]), a sub-step does not decrease the position:
    the drop moves toward position [plateGapMeters], the plate toward which
    gravity acts. *)
Theorem free_fall_moves_toward_gap (dt sample : R) (st : State) (d : Drop) :
  noiseBoost st = 0 ->
  fieldEnabled st = false ->
  chargeCoulombs d = 0 ->
  0 < mass d ->
  0 < dragCoeff d ->
  0 <= gravity st ->
  0 <= dt ->
  0 <= velocity d ->
  velocity d = 0 \/ dragCoeff d * dt <= mass d ->
  y d <= plateGapMeters st ->
  y d <= y (integrateStep dt (computeElectricField st) sample st d)
      <= Rmax 0 (plateGapMeters st).
Proof.
  intros Hnb Hfield Hq Hm Hc Hg Hdt Hv Hstable Hy.
  assert (HE : computeElectricField st = 0).
  { unfold computeElectricField. now rewrite Hfield. }
  rewrite HE.
  assert (Hev : 0 <= eulerVelocity dt 0 sample st d).
  { rewrite eulerVelocity_quiet; auto.
    - destruct Hstable as [-> | Hstable]; [nra |].
      assert (Hk : dragCoeff d / mass d * dt <= 1).
      { replace (dragCoeff d / mass d * dt) with (dragCoeff d * dt / mass d)
          by (field; lra).
        apply div_le_of_le_mul; lra. }
      set (q := dragCoeff d / mass d) in *. nra.
    - unfold electricForce. rewrite Hq. ring.
    - apply noiseForce_off. now left. }
  assert (Hcv : 0 <= cappedVelocity dt 0 sample st d).
  { apply clamp_nonneg; [exact Hev |].
    pose proof (speedCap_floor 0 st d). lra. }
  rewrite integrateStep_stages.
  assert (Hmoved : y d <= y (moved dt 0 sample st d)).
  { unfold moved, movedY. rewrite (refreshed_valid st d Hc).
    cbn [y setY setVelocity]. nra. }
  pose proof (Rmax_l 0 (plateGapMeters st)).
  pose proof (Rmax_r 0 (plateGapMeters st)).
  bounce_cases; lra.
Qed.

(** At a sub-step of one microsecond the Euler update does not overshoot
    for the default coefficients. *)
Lemma default_coefficients_short_step (st : State) (d : Drop) :
  radiusMicrons st = 0.9 -> viscosity st = 1.8e-5 ->
  dragCoeff (recomputeDropCoefficients st d) * 1e-6
  <= mass (recomputeDropCoefficients st d).
Proof.
  intros Hr Hmu.
  unfold recomputeDropCoefficients; cbn [mass dragCoeff].
  rewrite Hr, Hmu, effective_density. unfold Math_pow.
  pose proof PI_gt_3 as Hpi.
  pose proof (slip_excess_pos (0.9 * 1e-6)) as Hlo.
  set (slip := computeSlipCorrection (0.9 * 1e-6)) in *.
  cbn [pow]. rewrite Rmax_left by nra.
  replace (6 * PI * 1.8e-5 * (0.9 * 1e-6) / slip * 1e-6)
    with (6 * PI * 1.8e-5 * (0.9 * 1e-6) * 1e-6 / slip) by (field; lra).
  apply div_le_of_le_mul; [lra |]. nra.
Qed.

Lemma free_fall_moves_toward_gap_short_step :
  y dropNeutral
  <= y (integrateStep 1e-6 (computeElectricField stateFall) 0 stateFall dropNeutral)
  <= Rmax 0 (plateGapMeters stateFall).
Proof.
  apply (free_fall_moves_toward_gap 1e-6 0 stateFall dropNeutral);
    try reflexivity.
  - apply recomputed_mass_pos.
  - apply recomputed_drag_pos; cbn; lra.
  - cbn; lra.
  - lra.
  - right. apply default_coefficients_short_step; reflexivity.
  - cbn; lra.
Defined.

(** * Further properties of the code *)

(** ** [clamp] and the field *)

Lemma clamp_in (v a b : R) : a <= b -> a <= clamp v a b <= b.
Proof.
  intros Hab. unfold clamp, Rmin, Rmax.
  destruct (Rle_dec v a); destruct (Rle_dec _ b); lra.
Qed.

(** X2. With ordered bounds [clamp] returns a value between them, the value
    itself when it already lies between them, and clamping twice changes
    nothing; with crossed bounds it returns the upper bound. *)
Theorem clamp_range (v a b : R) :
  (a <= b -> a <= clamp v a b <= b) /\
  (a <= v <= b -> clamp v a b = v) /\
  (a <= b -> clamp (clamp v a b) a b = clamp v a b) /\
  (b < a -> clamp v a b = b).
Proof.
  split; [apply clamp_in | split; [apply clamp_inside | split]].
  - intros Hab. apply clamp_inside. now apply clamp_in.
  - intros Hba. unfold clamp, Rmin, Rmax.
    destruct (Rle_dec v a); destruct (Rle_dec _ b); lra.
Qed.

(** X3. With the field switched off the field is 0.  The pulse button
    reverses the field, whatever the state, and sets the pulse timer to
    0.8 s.  For a voltage between 0 and 8 kV, a gap between 2 and 10 mm and a
    polarity of 1 or -1 the field is at most 4 MV/m in magnitude. *)
Theorem computeElectricField_pulse (st : State) :
  (fieldEnabled st = false -> computeElectricField st = 0) /\
  computeElectricField (pulseBtn st) = - computeElectricField st /\
  pulseTimer (pulseBtn st) = 0.8 /\
  (0 <= voltageKV st <= 8 -> 0.002 <= plateGapMeters st <= 0.01 ->
   fieldPolarity st = 1 \/ fieldPolarity st = -1 ->
   Rabs (computeElectricField st) <= 4000000).
Proof.
  split; [| split; [| split]].
  - intros H. unfold computeElectricField. now rewrite H.
  - unfold computeElectricField, pulseBtn.
    cbn [fieldEnabled setPulseTimer setFieldPolarity plateGapMeters voltageKV
         fieldPolarity].
    destruct (negb (fieldEnabled st)); [lra |]. unfold Rdiv. ring.
  - reflexivity.
  - intros Hv Hg Hp. unfold computeElectricField.
    destruct (negb (fieldEnabled st)); [rewrite Rabs_R0; lra |].
    rewrite Rmax_left by lra. apply Rabs_le.
    assert (Hinv : 0 < / plateGapMeters st <= 500).
    { split; [apply Rinv_0_lt_compat; lra |].
      replace 500 with (/ 0.002) by lra. apply Rinv_le_contravar; lra. }
    unfold Rdiv. set (i := / plateGapMeters st) in *.
    destruct Hp as [-> | ->]; split; nra.
Qed.

(** ** What a step keeps *)

(** A step writes the position and the velocity of the drop it works on
    (the drop given, or the recomputed one), and nothing else. *)
Lemma integrateStep_writes (dt E sample : R) (st : State) (d : Drop) :
  exists v pos,
    integrateStep dt E sample st d = place (refreshed st d) v pos.
Proof.
  rewrite integrateStep_stages. unfold moved, place.
  bounce_cases; eexists; eexists; reflexivity.
Qed.

Lemma refreshed_stale (st : State) (d : Drop) :
  dragCoeff d <= 0 -> refreshed st d = recomputeDropCoefficients st d.
Proof.
  intros H. unfold refreshed. destruct (Rle_dec (dragCoeff d) 0); [reflexivity | lra].
Qed.

(** X4. A step never changes the charge.  On a drop with a positive drag
    coefficient it changes none of radius, mass, slip factor and drag
    coefficient; on a drop whose drag coefficient is not positive it leaves
    the recomputed ones.  So with a positive radius and viscosity the drag
    coefficient is positive after every step, and a positive mass stays
    positive. *)
Theorem integrateStep_coefficients (dt E sample : R) (st : State) (d : Drop) :
  let d' := integrateStep dt E sample st d in
  sameCharge d d' /\
  (0 < dragCoeff d -> sameCoefficients d d') /\
  (dragCoeff d <= 0 -> sameCoefficients (recomputeDropCoefficients st d) d') /\
  (0 < radiusMicrons st -> 0 < viscosity st ->
   0 < dragCoeff d' /\ (0 < mass d -> 0 < mass d')).
Proof.
  cbv zeta.
  destruct (integrateStep_writes dt E sample st d) as (v & pos & ->).
  unfold sameCharge, sameCoefficients, place.
  cbn [setY setVelocity chargeMultiple chargeCoulombs radiusMeters mass
       slipFactor dragCoeff].
  split; [| split; [| split]].
  - unfold refreshed. destruct (Rle_dec (dragCoeff d) 0); split; reflexivity.
  - intros Hc. rewrite (refreshed_valid st d Hc). repeat split.
  - intros Hc. rewrite (refreshed_stale st d Hc). repeat split.
  - intros Hr Hmu. unfold refreshed.
    destruct (Rle_dec (dragCoeff d) 0) as [Hc | Hc].
    + split; [now apply recomputed_drag_pos | intros _; apply recomputed_mass_pos].
    + split; [lra | auto].
Qed.

(** X5. With the noise boost at 0, or at a temperature of 0 K, a step does
    not depend on the random sample. *)
Theorem integrateStep_noise_off (dt E s1 s2 : R) (st : State) (d : Drop) :
  noiseBoost st = 0 \/ temperatureK st = 0 ->
  integrateStep dt E s1 st d = integrateStep dt E s2 st d.
Proof.
  intros Hoff. rewrite !integrateStep_stages.
  unfold moved, movedY, cappedVelocity, eulerVelocity, netForce.
  now rewrite !(noiseForce_off _ _ _ _ Hoff).
Qed.

Lemma integrateStep_noise_off_cold :
  integrateStep SUBSTEP_DT 0 1 (stateScenario false) (dropScenario false)
  = integrateStep SUBSTEP_DT 0 (-1) (stateScenario false) (dropScenario false).
Proof.
  apply (integrateStep_noise_off SUBSTEP_DT 0 1 (-1)
           (stateScenario false) (dropScenario false)).
  right. reflexivity.
Defined.

(** X6. The terminal velocity is a fixed point of the velocity update:
    without noise, a drop with positive mass and drag coefficient that moves
    at [(gravityForce + electricForce) / dragCoeff] leaves the Euler update
    and the clamp with the same velocity, whatever the sub-step. *)
Theorem terminal_velocity_fixed (dt E sample : R) (st : State) (d : Drop) :
  0 < mass d ->
  0 < dragCoeff d ->
  noiseBoost st = 0 \/ temperatureK st = 0 ->
  velocity d = (gravityForce st d + electricForce E d) / dragCoeff d ->
  eulerVelocity dt E sample st d = velocity d /\
  cappedVelocity dt E sample st d = velocity d /\
  movedY dt E sample st d = y d + velocity d * dt.
Proof.
  intros Hm Hc Hoff Hv.
  assert (He : eulerVelocity dt E sample st d = velocity d).
  { unfold eulerVelocity, netForce.
    rewrite (refreshed_valid st d Hc), (noiseForce_off _ _ _ _ Hoff).
    set (F := gravityForce st d + electricForce E d) in *.
    rewrite Hv. field. lra. }
  assert (Hcv : cappedVelocity dt E sample st d = velocity d).
  { unfold cappedVelocity. rewrite He. apply clamp_inside.
    assert (Hcap : 2 * Rabs (velocity d) <= speedCap E st d).
    { unfold speedCap, vtAnalytic. rewrite (refreshed_valid st d Hc).
      destruct (Rlt_dec 0 (dragCoeff d)); [| lra]. rewrite <- Hv.
      eapply Rle_trans; [apply Rmax_l |]. apply Rmax_l. }
    pose proof (Rabs_pos (velocity d)).
    pose proof (Rle_abs (velocity d)).
    pose proof (Rle_abs (- velocity d)) as Hn. rewrite Rabs_Ropp in Hn.
    lra. }
  repeat split; auto.
  unfold movedY. now rewrite Hcv, (refreshed_valid st d Hc).
Qed.

Lemma terminal_velocity_fixed_example :
  cappedVelocity SUBSTEP_DT 0 0 stateFall
    (place dropNeutral
       ((gravityForce stateFall dropNeutral + electricForce 0 dropNeutral)
        / dragCoeff dropNeutral) 0.001)
  = (gravityForce stateFall dropNeutral + electricForce 0 dropNeutral)
    / dragCoeff dropNeutral.
Proof.
  apply (terminal_velocity_fixed SUBSTEP_DT 0 0 stateFall
           (place dropNeutral
              ((gravityForce stateFall dropNeutral + electricForce 0 dropNeutral)
               / dragCoeff dropNeutral) 0.001)).
  - apply recomputed_mass_pos.
  - apply recomputed_drag_pos; cbn; lra.
  - left. reflexivity.
  - reflexivity.
Defined.

(** ** What a frame does to the state *)

Lemma sameSettings_refl (st : State) : sameSettings st st.
Proof. repeat split. Qed.

Lemma sameSettings_trans (a b c : State) :
  sameSettings a b -> sameSettings b c -> sameSettings a c.
Proof.
  unfold sameSettings.
  intros (H1 & H2 & H3 & H4 & H5 & H6 & H7 & H8 & H9)
         (K1 & K2 & K3 & K4 & K5 & K6 & K7 & K8 & K9).
  repeat split; congruence.
Qed.

(** The pulse-timer lines: the timer goes down by the sub-step and stops
    at 0; the polarity is put back to 1 when the timer is at 0 and is kept
    otherwise. *)
Lemma tickPulse_spec (stepDt : R) (st : State) :
  sameSettings st (tickPulse stepDt st) /\
  pulseTimer (tickPulse stepDt st) = Rmax 0 (pulseTimer st - stepDt) /\
  (0 < pulseTimer (tickPulse stepDt st) ->
   fieldPolarity (tickPulse stepDt st) = fieldPolarity st) /\
  (pulseTimer (tickPulse stepDt st) = 0 ->
   fieldPolarity (tickPulse stepDt st) = 1).
Proof.
  unfold tickPulse; cbv zeta.
  cbn [pulseTimer fieldPolarity setPulseTimer].
  destruct (Req_dec_T (Rmax 0 (pulseTimer st - stepDt)) 0) as [Hz | Hz].
  - destruct (Req_dec_T (fieldPolarity st) 1) as [Hp | Hp];
      cbn [pulseTimer fieldPolarity setPulseTimer setFieldPolarity];
      repeat split; intros; try lra; auto.
  - cbn [pulseTimer fieldPolarity setPulseTimer].
    repeat split; intros; try lra; auto.
Qed.

Lemma Rmax_0_twice (a s t : R) :
  0 <= t -> Rmax 0 (Rmax 0 (a - s) - t) = Rmax 0 (a - (s + t)).
Proof.
  intros Ht. unfold Rmax.
  destruct (Rle_dec 0 (a - s));
    destruct (Rle_dec 0 (a - (s + t)));
    match goal with
    | |- context [Rle_dec ?x ?y] => destruct (Rle_dec x y)
    end; lra.
Qed.

(** The simulated time of a run of the loop is the sum of the durations of
    its sub-steps. *)
Lemma substepLoop_state (fuel : nat) :
  forall noise remaining st d E o,
    substepLoop fuel noise remaining st d E = Some o ->
    sameSettings st (out_state o) /\
    0 <= totalDt (out_calls o) /\
    (remaining <= 0 -> out_state o = st /\ out_E o = E /\ out_calls o = []) /\
    (0 < remaining ->
     out_calls o <> [] /\
     pulseTimer (out_state o)
     = Rmax 0 (pulseTimer st - totalDt (out_calls o)) /\
     (0 < pulseTimer (out_state o) ->
      fieldPolarity (out_state o) = fieldPolarity st) /\
     (pulseTimer (out_state o) = 0 -> fieldPolarity (out_state o) = 1) /\
     out_E o = computeElectricField (out_state o)).
Proof.
  pose proof SUBSTEP_DT64_near as Hnear. pose proof HALF_ULP_small as Heps.
  unfold SUBSTEP_DT in Hnear.
  induction fuel as [| fuel IH]; intros noise remaining st d E o H.
  - cbn [substepLoop] in H.
    destruct (Rlt_dec 0 remaining); [discriminate |].
    injection H as <-. cbn. split; [apply sameSettings_refl |].
    split; [lra | split; [auto | lra]].
  - rewrite substepLoop_S in H.
    destruct (Rlt_dec 0 remaining) as [Hpos | Hpos].
    + cbv zeta in H.
      set (stepDt := Rmin remaining SUBSTEP_DT64) in *.
      assert (Hstep : 0 < stepDt).
      { subst stepDt. unfold Rmin.
        destruct (Rle_dec remaining SUBSTEP_DT64); lra. }
      destruct (tickPulse_spec stepDt st) as (Hs & Ht & Hkeep & Hback).
      set (st' := tickPulse stepDt st) in *.
      destruct (substepLoop fuel _ _ _ _ _) as [o' |] eqn:Ho; [| discriminate].
      injection H as <-.
      cbn [out_state out_E out_calls totalDt fold_right call_dt].
      fold (totalDt (out_calls o')).
      apply IH in Ho. destruct Ho as (Hs' & Hsum & Hdone & Hmore).
      split; [eapply sameSettings_trans; eauto |].
      split; [lra |]. split; [lra |]. intros _.
      split; [discriminate |].
      destruct (Rlt_dec 0 (round64 (remaining - stepDt))) as [Hr | Hr].
      * destruct (Hmore Hr) as (_ & Ht' & Hkeep' & Hback' & HE').
        assert (Htimer : pulseTimer (out_state o')
                         = Rmax 0 (pulseTimer st
                                   - (stepDt + totalDt (out_calls o'))))
          by (rewrite Ht', Ht; apply Rmax_0_twice; exact Hsum).
        repeat split; auto.
        intros Hp. rewrite (Hkeep' Hp). apply Hkeep.
        rewrite Ht' in Hp. revert Hp. unfold Rmax.
        destruct (Rle_dec 0 (pulseTimer st' - totalDt (out_calls o'))); lra.
      * destruct Hdone as (-> & -> & ->); [lra |].
        cbn [totalDt fold_right]. rewrite Rplus_0_r. auto.
    + injection H as <-. cbn. split; [apply sameSettings_refl |].
      split; [lra | split; [auto | lra]].
Qed.




(** ** What a frame does to the drop *)

Lemma step_in_gap (dt E sample : R) (st : State) (d : Drop) :
  0 <= plateGapMeters st ->
  0 <= y (integrateStep dt E sample st d) <= plateGapMeters st.
Proof.
  intros Hgap. rewrite integrateStep_stages. bounce_cases; lra.
Qed.

Lemma step_sameCoefficients (dt E sample : R) (st : State) (d : Drop) :
  0 < dragCoeff d ->
  sameCoefficients d (integrateStep dt E sample st d) /\
  0 < dragCoeff (integrateStep dt E sample st d).
Proof.
  intros Hc.
  destruct (integrateStep_writes dt E sample st d) as (v & pos & ->).
  rewrite (refreshed_valid st d Hc). unfold sameCoefficients, place.
  cbn [setY setVelocity radiusMeters mass slipFactor dragCoeff].
  repeat split. exact Hc.
Qed.

Lemma replay_in_gap (calls : list Call) :
  forall start stop st d,
    consecutive start stop st calls ->
    0 <= plateGapMeters st ->
    (0 <= y d <= plateGapMeters st \/ calls <> []) ->
    0 <= y (replay calls d) <= plateGapMeters st.
Proof.
  unfold replay.
  induction calls as [| c calls IH]; intros start stop st d Hcons Hgap Hy.
  - cbn. destruct Hy as [Hy | Hy]; [exact Hy | contradiction].
  - cbn [fold_left]. cbn [consecutive] in Hcons.
    destruct Hcons as (_ & _ & _ & Hst & _ & Hrest).
    destruct (tickPulse_spec (call_dt c) st) as ((_ & _ & Hg & _) & _).
    rewrite <- Hst in Hg. rewrite <- Hg.
    eapply IH; [exact Hrest | lra |].
    left. apply step_in_gap. lra.
Qed.

Lemma replay_sameCoefficients (calls : list Call) :
  forall d, 0 < dragCoeff d -> sameCoefficients d (replay calls d).
Proof.
  unfold replay.
  induction calls as [| c calls IH]; intros d Hc; cbn [fold_left];
    [repeat split |].
  destruct (step_sameCoefficients (call_dt c) (call_E c) (call_sample c)
                                  (call_state c) d Hc) as [Hs Hc'].
  specialize (IH _ Hc'). unfold sameCoefficients in *.
  destruct Hs as (S1 & S2 & S3 & S4), IH as (I1 & I2 & I3 & I4).
  repeat split; congruence.
Qed.

(** X8. With a gap that is not negative, a frame leaves the drop between
    the plates when it found it there, and in any case when it made at least
    one sub-step; the gap is the same before and after.  A drop with a
    positive drag coefficient has the same radius, mass, slip factor and
    drag coefficient after the frame. *)
Theorem update_keeps_drop (fuel : nat) (noise : nat -> R) (dt : JsNumber)
    (st : State) (d : Drop) :
  (91 <= fuel)%nat ->
  0 <= plateGapMeters st ->
  exists o,
    update fuel noise dt st d = Some o /\
    plateGapMeters (out_state o) = plateGapMeters st /\
    (0 <= y d <= plateGapMeters st \/ out_calls o <> [] ->
     0 <= y (out_drop o) <= plateGapMeters st) /\
    (0 < dragCoeff d -> sameCoefficients d (out_drop o)).
Proof.
  intros Hfuel Hgap.
  destruct (update_returns noise dt st d) as [o Ho].
  exists o. split; [now apply update_fuel_mono |].
  destruct (running st) eqn:Hrun.
  - destruct (update_running_calls _ _ _ _ _ Hrun Ho)
      as (_ & Hcons & _ & Hdrop & _).
    unfold update in Ho; cbv zeta in Ho. rewrite Hrun in Ho. cbn [negb] in Ho.
    assert (Hsame : plateGapMeters (out_state o) = plateGapMeters st).
    { destruct (Req_dec_T _ 0); [injection Ho as <-; reflexivity |].
      apply substepLoop_state in Ho. destruct Ho as ((_ & _ & Hg & _) & _).
      exact Hg. }
    split; [exact Hsame |]. rewrite Hdrop. split.
    + intros Hy. eapply replay_in_gap; eauto.
    + apply replay_sameCoefficients.
  - unfold update in Ho; cbv zeta in Ho. rewrite Hrun in Ho. cbn [negb] in Ho.
    injection Ho as <-. cbn [out_state out_drop out_calls].
    split; [reflexivity | split].
    + intros [Hy | Hy]; [exact Hy | contradiction].
    + intros _. repeat split.
Qed.

Lemma update_keeps_drop_default :
  (91 <= 91)%nat /\ 0 <= plateGapMeters state0 /\
  exists o,
    update 91 (fun _ => 0) (Finite (1 / 60)) state0 dropBoot = Some o /\
    0 <= y (out_drop o) <= plateGapMeters state0.
Proof.
  assert (Hgap : 0 <= plateGapMeters state0) by (cbn; lra).
  split; [apply le_n | split; [exact Hgap |]].
  destruct (update_keeps_drop 91 (fun _ => 0) (Finite (1 / 60)) state0 dropBoot
              (le_n 91) Hgap) as (o & Ho & _ & Hy & _).
  exists o. split; [exact Ho |]. apply Hy. left. cbn. lra.
Defined.

(** ** The frame loop *)

(** X9. The duration that [loop] gives to [update] lies between 0 and
    [MAX_FRAME_DT], the double 0.05, whatever the two timestamps, so the
    limit of [update] never cuts it.  While running, the frame makes at most
    91 sub-steps, and their durations add up to that duration up to the
    rounding of [remaining -= stepDt], at most [2^-58] s for each sub-step.
    A timestamp that is not later than the last one gives the duration 0:
    no sub-step is made and the drop is left as it was. *)
Theorem loop_frame (noise : nat -> R) (timestamp lastTime : R)
    (st : State) (d : Drop) :
  running st = true ->
  let dt := loopDt timestamp lastTime in
  0 <= dt <= MAX_FRAME_DT64 /\
  Rmin (safeDtOf (Finite dt)) MAX_FRAME_DT64 = dt /\
  exists o,
    update 91 noise (Finite dt) st d = Some o /\
    (length (out_calls o) <= 91)%nat /\
    Rabs (totalDt (out_calls o) - dt)
      <= INR (length (out_calls o)) * HALF_ULP /\
    (timestamp <= lastTime -> dt = 0 /\ out_calls o = [] /\ out_drop o = d).
Proof.
  intros Hrun dt.
  pose proof MAX_FRAME_DT64_near as Hm. pose proof HALF_ULP_small as He.
  unfold MAX_FRAME_DT in Hm.
  assert (Hlit : round64 0.05 = MAX_FRAME_DT64).
  { unfold MAX_FRAME_DT64, MAX_FRAME_DT. f_equal. lra. }
  assert (Hdt : 0 <= dt <= MAX_FRAME_DT64).
  { subst dt. unfold loopDt. rewrite Hlit.
    split; [apply Rmin_glb; [lra | apply Rmax_l] | apply Rmin_l]. }
  assert (Hmin : Rmin (safeDtOf (Finite dt)) MAX_FRAME_DT64 = dt).
  { cbn [safeDtOf]. rewrite Rmax_right by lra. apply Rmin_left. lra. }
  split; [exact Hdt | split; [exact Hmin |]].
  destruct (update_returns noise (Finite dt) st d) as [o Ho].
  exists o. split; [exact Ho |].
  destruct (update_running_calls _ _ _ _ _ Hrun Ho)
    as (_ & Hcons & Htot & Hdrop & Hlen).
  rewrite Hmin in Htot, Hcons.
  split; [exact Hlen | split; [apply Rabs_le; lra |]].
  intros Hback.
  assert (Hz : dt = 0).
  { subst dt. unfold loopDt. rewrite Hlit.
    assert (Hq : round64 (round64 (timestamp - lastTime) / 1000) <= 0).
    { apply round64_nonpos.
      pose proof (round64_nonpos (timestamp - lastTime) ltac:(lra)). lra. }
    rewrite Rmax_left by exact Hq. apply Rmin_right. lra. }
  split; [exact Hz |].
  rewrite Hz in Hcons.
  destruct (out_calls o) as [| c calls] eqn:Hcalls.
  - split; [reflexivity |]. rewrite Hdrop. reflexivity.
  - cbn in Hcons. lra.
Qed.

Lemma loop_frame_sixty_hertz :
  running state0 = true /\
  0 <= loopDt (1000 + 1000 / 60) 1000 <= MAX_FRAME_DT64.
Proof.
  split; [reflexivity |].
  apply (loop_frame (fun _ => 0) (1000 + 1000 / 60) 1000 state0 dropBoot).
  reflexivity.
Defined.

(** ** Charge *)

Lemma Math_round_IZR (n : Z) : Math_round (IZR n) = n.
Proof.
  unfold Math_round. apply Zfloor_eq. lra.
Qed.

Lemma clamp_IZR (n lo hi : Z) :
  (lo <= hi)%Z ->
  clamp (IZR n) (IZR lo) (IZR hi) = IZR (Z.min (Z.max n lo) hi).
Proof.
  intros Hle. pose proof (IZR_le _ _ Hle) as Hle'.
  destruct (Z.le_gt_cases n lo) as [H1 | H1].
  - rewrite Z.max_r, Z.min_l by lia.
    apply clamp_below; [lra | now apply IZR_le].
  - rewrite Z.max_l by lia.
    destruct (Z.le_gt_cases n hi) as [H2 | H2].
    + rewrite Z.min_l by lia. apply clamp_inside.
      split; apply IZR_le; lia.
    + rewrite Z.min_r by lia. apply clamp_above; [lra |].
      apply IZR_le. lia.
Qed.

Lemma Math_round_bounds (x : R) (lo hi : Z) :
  IZR lo <= x <= IZR hi -> (lo <= Math_round x <= hi)%Z.
Proof.
  intros [Hlo Hhi]. unfold Math_round.
  pose proof (Zfloor_bound (x + 1 / 2)) as [Hf1 Hf2].
  split.
  - apply Zfloor_lub. lra.
  - apply Z.lt_succ_r. apply lt_IZR. rewrite succ_IZR. lra.
Qed.

(** X10. [setChargeMultiple] leaves a whole charge number between -25 and
    25, within one half of the clamped argument, and the charge in coulombs
    that goes with it; position, velocity and coefficients are untouched.
    A whole number is taken as it is when it lies in the range and is
    replaced by the nearer bound otherwise. *)
Theorem setChargeMultiple_range (m : R) (d : Drop) :
  let d' := setChargeMultiple m d in
  (-25 <= chargeMultiple d' <= 25)%Z /\
  chargeCoulombs d' = IZR (chargeMultiple d') * ELECTRON_CHARGE /\
  Rabs (IZR (chargeMultiple d') - clamp m (-25) 25) <= 1 / 2 /\
  (forall n : Z, m = IZR n ->
     chargeMultiple d' = Z.min (Z.max n (-25)) 25) /\
  y d' = y d /\ velocity d' = velocity d /\ sameCoefficients d d'.
Proof.
  cbv zeta. unfold setChargeMultiple, sameCoefficients.
  cbn [chargeMultiple chargeCoulombs y velocity radiusMeters mass slipFactor
       dragCoeff].
  assert (Hc : -25 <= clamp m (-25) 25 <= 25).
  { destruct (clamp_between m 25) as [H1 H2]; [lra |].
    replace (-25) with (- 25) by lra. split; assumption. }
  split; [apply Math_round_bounds; exact Hc |].
  split; [reflexivity |]. split.
  - unfold Math_round.
    pose proof (Zfloor_bound (clamp m (-25) 25 + 1 / 2)) as [Hf1 Hf2].
    apply Rabs_le. lra.
  - split; [| repeat split].
    intros n ->. rewrite (clamp_IZR n (-25) 25) by lia.
    apply Math_round_IZR.
Qed.

Lemma setChargeMultiple_IZR (n : Z) (d : Drop) :
  chargeMultiple (setChargeMultiple (IZR n) d) = Z.min (Z.max n (-25)) 25 /\
  chargeCoulombs (setChargeMultiple (IZR n) d)
  = IZR (Z.min (Z.max n (-25)) 25) * ELECTRON_CHARGE.
Proof.
  unfold setChargeMultiple. cbn [chargeMultiple chargeCoulombs].
  rewrite (clamp_IZR n (-25) 25) by lia. rewrite Math_round_IZR.
  split; reflexivity.
Qed.

(** ** Screen mapping *)

Lemma getPlateBounds_top (height : R) (st : State) :
  fst (getPlateBounds height st) = 32.
Proof. reflexivity. Qed.

Lemma getPlateBounds_bottom (height : R) (st : State) :
  104 <= height ->
  72 <= snd (getPlateBounds height st) <= height - 32.
Proof.
  intros Hh. unfold getPlateBounds; cbv zeta. cbn [snd].
  pose proof (clamp_in
                (32 + (80 + clamp ((plateGapMeters st - MIN_GAP_METERS)
                                   / (MAX_GAP_METERS - MIN_GAP_METERS)) 0 1
                            * (Rmax 120 (height - 32 - 32) - 80)))
                (32 + 40) (height - 32)) as H.
  lra.
Qed.

Lemma screen_y_formula (width height yValue : R) (st : State) :
  104 <= height ->
  getDropScreenPositionFromY width height yValue st
  = (width / 2,
     32 + yValue / plateGapMeters st * (snd (getPlateBounds height st) - 32)).
Proof.
  intros Hh. pose proof (getPlateBounds_bottom height st Hh) as Hb.
  unfold getDropScreenPositionFromY.
  destruct (getPlateBounds height st) as [top bottom] eqn:Hpb.
  assert (Htop : top = 32).
  { pose proof (getPlateBounds_top height st) as Ht. rewrite Hpb in Ht.
    exact Ht. }
  subst top. cbn [snd] in *. rewrite Rmax_left by lra. reflexivity.
Qed.

(** X11. On a canvas at least 104 pixels high the upper plate is drawn at
    32 pixels from the top and the lower plate at least 40 pixels below it,
    at most 32 pixels above the lower edge.  With a positive gap the drop at
    position 0 is drawn on the line of the upper plate and the drop at
    position [plateGapMeters] on the line of the lower plate, at half the
    width, and a larger position is never drawn higher up. *)
Theorem screen_orientation (width height : R) (st : State) (d : Drop) :
  104 <= height ->
  0 < plateGapMeters st ->
  let top := fst (getPlateBounds height st) in
  let bottom := snd (getPlateBounds height st) in
  top = 32 /\ top + 40 <= bottom <= height - 32 /\
  getDropScreenPositionFromY width height 0 st = (width / 2, top) /\
  getDropScreenPositionFromY width height (plateGapMeters st) st
  = (width / 2, bottom) /\
  (forall y1 y2, y1 <= y2 ->
     snd (getDropScreenPositionFromY width height y1 st)
     <= snd (getDropScreenPositionFromY width height y2 st)) /\
  getDropScreenPosition width height st d
  = getDropScreenPositionFromY width height (y d) st.
Proof.
  intros Hh Hgap top bottom. subst top bottom.
  pose proof (getPlateBounds_bottom height st Hh) as Hb.
  rewrite getPlateBounds_top.
  split; [reflexivity | split; [lra |]].
  split; [| split; [| split]].
  - rewrite screen_y_formula by exact Hh. f_equal. unfold Rdiv. ring.
  - rewrite screen_y_formula by exact Hh. f_equal. field. lra.
  - intros y1 y2 Hy. rewrite !screen_y_formula by exact Hh. cbn [snd].
    assert (Hi : 0 < / plateGapMeters st) by (apply Rinv_0_lt_compat; lra).
    unfold Rdiv. set (i := / plateGapMeters st) in *.
    set (b := snd (getPlateBounds height st)) in *.
    assert (y1 * i <= y2 * i) by nra. nra.
  - reflexivity.
Qed.

Lemma screen_orientation_default :
  104 <= 480 /\ 0 < plateGapMeters state0 /\
  getDropScreenPositionFromY 640 480 0 state0
  = (640 / 2, fst (getPlateBounds 480 state0)).
Proof.
  assert (H1 : 104 <= 480) by lra.
  assert (H2 : 0 < plateGapMeters state0) by (cbn; lra).
  split; [exact H1 | split; [exact H2 |]].
  apply (screen_orientation 640 480 state0 dropBoot H1 H2).
Defined.

Lemma getDropPixelRadius_range (st : State) :
  0.3 <= radiusMicrons st <= 1.5 -> 8 <= getDropPixelRadius st <= 22.
Proof.
  intros Hr. unfold getDropPixelRadius; cbv zeta.
  assert (0 <= (radiusMicrons st - 0.3) / (1.5 - 0.3) <= 1).
  { split; [apply le_div_of_mul_le | apply div_le_of_le_mul]; lra. }
  lra.
Qed.

(** X12. A press on the canvas changes the drop only when it falls within
    one and a half pixel radii of the drop's centre on the screen.  It then
    lowers the charge number by one, or raises it by one with the shift key,
    stopping at -25 and at 25, and sets the charge in coulombs to match;
    nothing else of the drop changes. *)
Theorem pointerdown_charge (width height px py : R) (shiftKey : bool)
    (st : State) (d : Drop) :
  (-25 <= chargeMultiple d <= 25)%Z ->
  let c := getDropScreenPosition width height st d in
  let dist := sqrt ((px - fst c) * (px - fst c) + (py - snd c) * (py - snd c)) in
  let d' := pointerdown width height px py shiftKey st d in
  (getDropPixelRadius st * 1.5 < dist -> d' = d) /\
  (dist <= getDropPixelRadius st * 1.5 ->
   chargeMultiple d'
   = (if shiftKey then Z.min (chargeMultiple d + 1) 25
      else Z.max (chargeMultiple d - 1) (-25)) /\
   chargeCoulombs d' = IZR (chargeMultiple d') * ELECTRON_CHARGE /\
   y d' = y d /\ velocity d' = velocity d /\ sameCoefficients d d').
Proof.
  intros Hc c dist d'. subst c dist d'. unfold pointerdown.
  destruct (getDropScreenPosition width height st d) as [cx cy].
  cbn [fst snd]; cbv zeta.
  destruct (Rle_dec (sqrt ((px - cx) * (px - cx) + (py - cy) * (py - cy)))
                    (getDropPixelRadius st * 1.5)) as [Hin | Hout].
  - split; [intros; lra |]. intros _.
    assert (Harg : IZR (chargeMultiple d) + (if shiftKey then 1 else -1)
                   = IZR (chargeMultiple d + (if shiftKey then 1 else -1))).
    { rewrite plus_IZR. destruct shiftKey; reflexivity. }
    rewrite Harg.
    destruct (setChargeMultiple_IZR
                (chargeMultiple d + (if shiftKey then 1 else -1)) d)
      as [Hm Hq].
    rewrite Hm, Hq.
    split; [destruct shiftKey; lia |].
    split; [reflexivity |]. repeat split.
  - split; [reflexivity | intros; lra].
Qed.

Lemma pointerdown_charge_on_centre :
  (-25 <= chargeMultiple dropBoot <= 25)%Z /\
  chargeMultiple
    (pointerdown 640 480
       (fst (getDropScreenPosition 640 480 state0 dropBoot))
       (snd (getDropScreenPosition 640 480 state0 dropBoot))
       false state0 dropBoot)
  = (-9)%Z.
Proof.
  assert (Hc : (-25 <= chargeMultiple dropBoot <= 25)%Z) by (cbn; lia).
  split; [exact Hc |].
  destruct (pointerdown_charge 640 480
              (fst (getDropScreenPosition 640 480 state0 dropBoot))
              (snd (getDropScreenPosition 640 480 state0 dropBoot))
              false state0 dropBoot Hc) as [_ Hhit].
  destruct Hhit as (Hm & _).
  - rewrite !Rminus_diag, Rmult_0_l, Rplus_0_l, sqrt_0.
    pose proof (getDropPixelRadius_range state0) as Hr.
    cbn [radiusMicrons state0] in Hr. lra.
  - rewrite Hm. reflexivity.
Defined.

(** ** Setters *)

Lemma setRadiusMicrons_spec (microns : R) (preserveVelocity : bool)
    (st : State) (d : Drop) :
  let st' := fst (setRadiusMicrons microns preserveVelocity st d) in
  let d' := snd (setRadiusMicrons microns preserveVelocity st d) in
  st' = setRadius st (clamp microns 0.3 1.5) /\
  0.3 <= radiusMicrons st' <= 1.5 /\
  sameCoefficients (recomputeDropCoefficients st' d) d' /\
  sameCharge d d' /\
  y d' = clamp (y d) 0 (plateGapMeters st) /\
  velocity d' = (if preserveVelocity then velocity d else 0).
Proof.
  cbv zeta. unfold setRadiusMicrons; cbv zeta. cbn [fst snd].
  split; [reflexivity |].
  split; [cbn [radiusMicrons setRadius]; apply clamp_in; lra |].
  unfold sameCoefficients, sameCharge.
  destruct preserveVelocity; repeat split.
Qed.

(** X13. [setRadiusMicrons] leaves a radius between 0.3 and 1.5 um (the
    argument itself when it lies in that range), coefficients computed for
    that radius, so a positive mass and, for a positive viscosity, a positive
    drag coefficient, and a position clamped between 0 and the gap; the
    velocity is kept or set to 0 as asked, the charge is kept, and no other
    setting changes. *)
Theorem setRadiusMicrons_valid (microns : R) (preserveVelocity : bool)
    (st : State) (d : Drop) :
  let st' := fst (setRadiusMicrons microns preserveVelocity st d) in
  let d' := snd (setRadiusMicrons microns preserveVelocity st d) in
  0.3 <= radiusMicrons st' <= 1.5 /\
  (0.3 <= microns <= 1.5 -> radiusMicrons st' = microns) /\
  radiusMeters d' = radiusMicrons st' * 1e-6 /\
  0 < mass d' /\
  (0 < viscosity st -> 0 < dragCoeff d') /\
  (0 <= plateGapMeters st -> 0 <= y d' <= plateGapMeters st') /\
  velocity d' = (if preserveVelocity then velocity d else 0) /\
  sameCharge d d' /\
  plateGapMeters st' = plateGapMeters st /\ viscosity st' = viscosity st /\
  voltageKV st' = voltageKV st /\ pulseTimer st' = pulseTimer st /\
  fieldPolarity st' = fieldPolarity st.
Proof.
  cbv zeta.
  destruct (setRadiusMicrons_spec microns preserveVelocity st d)
    as (Hst & Hr & (C1 & C2 & C3 & C4) & Hq & Hy & Hv).
  set (st' := fst (setRadiusMicrons microns preserveVelocity st d)) in *.
  set (d' := snd (setRadiusMicrons microns preserveVelocity st d)) in *.
  split; [exact Hr |].
  split; [intros Hin; rewrite Hst; cbn [radiusMicrons setRadius];
          now apply clamp_inside |].
  split; [rewrite C1; reflexivity |].
  split; [rewrite C2; apply recomputed_mass_pos |].
  split; [intros Hmu; rewrite C4; apply recomputed_drag_pos;
          [lra | rewrite Hst; exact Hmu] |].
  split; [intros Hg; rewrite Hy, Hst; cbn [plateGapMeters setRadius];
          now apply clamp_in |].
  split; [exact Hv |]. split; [exact Hq |].
  rewrite Hst. repeat split.
Qed.

Lemma gap_clamped (x : R) :
  0.002 <= clamp x MIN_GAP_METERS MAX_GAP_METERS <= 0.01.
Proof.
  apply (clamp_in x MIN_GAP_METERS MAX_GAP_METERS).
  unfold MIN_GAP_METERS, MAX_GAP_METERS. lra.
Qed.

(** X14. [setPlateGap] leaves a gap between 2 and 10 mm: the value asked
    for when it is a number of millimetres in that range, and the gap as it
    was when the value is not finite and the gap was in that range.  The drop
    ends between 0 and the new gap.  With [preservePosition] and a positive
    old gap, a drop between the old plates keeps its share of the gap and
    every trail point ends between the new plates; otherwise the drop is put
    at 35 percent of the new gap and the trail is not touched.  The trail
    keeps its length and the velocity is kept. *)
Theorem setPlateGap_valid (mmValue : JsNumber) (preservePosition : bool)
    (st : State) (d : Drop) (trail : list TrailPoint) :
  let st' := fst (fst (setPlateGap mmValue preservePosition st d trail)) in
  let d' := snd (fst (setPlateGap mmValue preservePosition st d trail)) in
  let trail' := snd (setPlateGap mmValue preservePosition st d trail) in
  0.002 <= plateGapMeters st' <= 0.01 /\
  (forall x, mmValue = Finite x -> 2 <= x <= 10 ->
     plateGapMeters st' = x / 1000) /\
  (Number_isFinite mmValue = false -> 0.002 <= plateGapMeters st <= 0.01 ->
     plateGapMeters st' = plateGapMeters st) /\
  0 <= y d' <= plateGapMeters st' /\
  (preservePosition = true -> 0 < plateGapMeters st ->
     (0 <= y d <= plateGapMeters st ->
      y d' / plateGapMeters st' = y d / plateGapMeters st) /\
     Forall (fun pt => 0 <= trail_y pt <= plateGapMeters st') trail') /\
  (preservePosition = false \/ plateGapMeters st <= 0 ->
     y d' = plateGapMeters st' * 0.35 /\ trail' = trail) /\
  length trail' = length trail /\
  velocity d' = velocity d /\ sameCharge d d' /\ sameCoefficients d d'.
Proof.
  cbv zeta. unfold setPlateGap; cbv zeta.
  set (clean := match mmValue with
                | Finite x => x
                | _ => plateGapMeters st * 1000
                end).
  pose proof (gap_clamped (clean / 1000)) as Hm.
  set (meters := clamp (clean / 1000) MIN_GAP_METERS MAX_GAP_METERS) in *.
  assert (Hrel : forall v, 0 <= clamp v 0 1 * meters <= meters).
  { intros v. pose proof (clamp_in v 0 1). nra. }
  assert (Hfin : forall x, mmValue = Finite x -> 2 <= x <= 10 ->
                           meters = x / 1000).
  { intros x -> Hx. subst meters clean. apply clamp_inside.
    unfold MIN_GAP_METERS, MAX_GAP_METERS. lra. }
  assert (Hnan : Number_isFinite mmValue = false ->
                 0.002 <= plateGapMeters st <= 0.01 ->
                 meters = plateGapMeters st).
  { intros Hn Hg. subst meters clean.
    replace (match mmValue with
             | Finite x => x
             | _ => plateGapMeters st * 1000
             end) with (plateGapMeters st * 1000)
      by (destruct mmValue; [discriminate | reflexivity ..]).
    rewrite clamp_inside; unfold MIN_GAP_METERS, MAX_GAP_METERS; lra. }
  unfold sameCharge, sameCoefficients.
  destruct preservePosition; cbn [andb];
    destruct (Rlt_dec 0 (plateGapMeters st)) as [Hpos | Hpos];
    cbn [fst snd plateGapMeters setPlateGapMeters y velocity setY
         chargeMultiple chargeCoulombs radiusMeters mass slipFactor dragCoeff].
  - split; [exact Hm |]. split; [exact Hfin |]. split; [exact Hnan |].
    split; [apply Hrel |]. split.
    + intros _ _. split.
      * intros Hy. rewrite clamp_inside.
        -- field. lra.
        -- split; [apply le_div_of_mul_le | apply div_le_of_le_mul]; lra.
      * apply Forall_forall. intros pt Hin. apply in_map_iff in Hin.
        destruct Hin as (q & <- & _). cbn [trail_y]. apply Hrel.
    + split; [intros [Hf | Hf]; [discriminate | lra] |].
      split; [apply length_map |]. repeat split.
  - split; [exact Hm |]. split; [exact Hfin |]. split; [exact Hnan |].
    split; [lra |]. split; [intros _ Hp; lra |].
    split; [intros _; split; reflexivity |]. repeat split.
  - split; [exact Hm |]. split; [exact Hfin |]. split; [exact Hnan |].
    split; [lra |]. split; [intros Hf; discriminate |].
    split; [intros _; split; reflexivity |]. repeat split.
  - split; [exact Hm |]. split; [exact Hfin |]. split; [exact Hnan |].
    split; [lra |]. split; [intros Hf; discriminate |].
    split; [intros _; split; reflexivity |]. repeat split.
Qed.

(** ** A new drop *)

Lemma toFixed_between (n : nat) (x : R) (a b : Z) :
  IZR a <= x * 10 ^ n <= IZR b ->
  IZR a <= toFixed n x * 10 ^ n <= IZR b.
Proof.
  intros [Ha Hb]. unfold toFixed.
  assert (Hp : 0 < 10 ^ n) by (apply pow_lt; lra).
  replace (IZR (Zfloor (x * 10 ^ n + 1 / 2)) / 10 ^ n * 10 ^ n)
    with (IZR (Zfloor (x * 10 ^ n + 1 / 2))) by (field; lra).
  pose proof (Zfloor_bound (x * 10 ^ n + 1 / 2)) as [Hf1 Hf2].
  split; apply IZR_le.
  - apply Zfloor_lub. lra.
  - apply Z.lt_succ_r. apply lt_IZR. rewrite succ_IZR. lra.
Qed.

Lemma setPlateGap_fresh (x : R) (st : State) (d : Drop)
    (trail : list TrailPoint) :
  setPlateGap (Finite x) false st d trail
  = (setPlateGapMeters st (clamp (x / 1000) MIN_GAP_METERS MAX_GAP_METERS),
     setY d (clamp (x / 1000) MIN_GAP_METERS MAX_GAP_METERS * 0.35),
     trail).
Proof. reflexivity. Qed.

Lemma randCharge_whole (coin draw : R) :
  0 <= draw < 1 ->
  exists n : Z,
    (if Rlt_dec 0.5 coin then 1 else -1) * (2 + IZR (Math_floor (draw * 12)))
    = IZR n /\ (2 <= Z.abs n <= 13)%Z.
Proof.
  intros [H0 H1]. unfold Math_floor.
  assert (Hk : (0 <= Zfloor (draw * 12) <= 11)%Z).
  { pose proof (Zfloor_bound (draw * 12)) as [Hf1 Hf2]. split.
    - apply Zfloor_lub. lra.
    - apply Z.lt_succ_r. apply lt_IZR. rewrite succ_IZR. lra. }
  set (k := Zfloor (draw * 12)) in *.
  destruct (Rlt_dec 0.5 coin).
  - exists (2 + k)%Z. rewrite plus_IZR. split; [lra | lia].
  - exists (- (2 + k))%Z. rewrite opp_IZR, plus_IZR. split; [lra | lia].
Qed.

(** X15. [resetDrop] leaves the drop at 35 percent of the gap, at rest, with
    an empty trail, a radius between 0.3 and 1.5 um and coefficients computed
    for it.  With [randomize] and random numbers in [0, 1) the new radius
    lies between 0.4 and 1.3 um, the voltage between 0.5 and 6 kV, the gap
    between 2 and 8 mm, and the charge number is whole with a magnitude
    between 2 and 13, the charge in coulombs matching it.  Without
    [randomize] voltage, gap and charge are kept. *)
Theorem resetDrop_valid (randomize : bool) (rnd : nat -> R) (st : State)
    (d : Drop) (trail : list TrailPoint) :
  (forall i, 0 <= rnd i < 1) ->
  let st' := fst (fst (resetDrop randomize rnd st d trail)) in
  let d' := snd (fst (resetDrop randomize rnd st d trail)) in
  let trail' := snd (resetDrop randomize rnd st d trail) in
  y d' = plateGapMeters st' * 0.35 /\ velocity d' = 0 /\ trail' = [] /\
  0.3 <= radiusMicrons st' <= 1.5 /\
  radiusMeters d' = radiusMicrons st' * 1e-6 /\
  0 < mass d' /\ (0 < viscosity st -> 0 < dragCoeff d') /\
  (randomize = true ->
     0.4 <= radiusMicrons st' <= 1.3 /\ 0.5 <= voltageKV st' <= 6 /\
     0.002 <= plateGapMeters st' <= 0.008 /\
     (2 <= Z.abs (chargeMultiple d') <= 13)%Z /\
     chargeCoulombs d' = IZR (chargeMultiple d') * ELECTRON_CHARGE) /\
  (randomize = false ->
     voltageKV st' = voltageKV st /\ plateGapMeters st' = plateGapMeters st /\
     sameCharge d d').
Proof.
  intros Hrnd. cbv zeta. unfold resetDrop.
  destruct randomize.
  - (* a random drop *)
    set (radius := toFixed 2 (0.4 + rnd 0%nat * 0.9)).
    set (volts := toFixed 2 (0.5 + rnd 1%nat * 5.5)).
    set (gapMm := toFixed 1 (2 + rnd 4%nat * 6)).
    assert (Hradius : 0.4 <= radius <= 1.3).
    { pose proof (Hrnd 0%nat) as H0.
      pose proof (toFixed_between 2 (0.4 + rnd 0%nat * 0.9) 40 130) as Hb.
      fold radius in Hb. cbn [pow] in Hb. lra. }
    assert (Hvolts : 0.5 <= volts <= 6).
    { pose proof (Hrnd 1%nat) as H0.
      pose proof (toFixed_between 2 (0.5 + rnd 1%nat * 5.5) 50 600) as Hb.
      fold volts in Hb. cbn [pow] in Hb. lra. }
    assert (Hgap : 2 <= gapMm <= 8).
    { pose proof (Hrnd 4%nat) as H0.
      pose proof (toFixed_between 1 (2 + rnd 4%nat * 6) 20 80) as Hb.
      fold gapMm in Hb. cbn [pow] in Hb. lra. }
    destruct (randCharge_whole (rnd 2%nat) (rnd 3%nat) (Hrnd 3%nat))
      as (n & -> & Hn).
    cbv zeta.
    pose proof (setRadiusMicrons_spec radius false (setVoltageKV st volts)
                  (setChargeMultiple (IZR n) d))
      as (Hst & Hr & (C1 & C2 & C3 & C4) & (Q1 & Q2) & Hy & Hv).
    destruct (setRadiusMicrons radius false (setVoltageKV st volts)
                (setChargeMultiple (IZR n) d)) as [st1 d1].
    cbn [fst snd] in *. rewrite setPlateGap_fresh. cbn [fst snd].
    assert (Hmeters : clamp (gapMm / 1000) MIN_GAP_METERS MAX_GAP_METERS
                      = gapMm / 1000).
    { apply clamp_inside. unfold MIN_GAP_METERS, MAX_GAP_METERS. lra. }
    rewrite Hmeters.
    cbn [y velocity setY setVelocity plateGapMeters setPlateGapMeters
         radiusMicrons radiusMeters mass dragCoeff voltageKV chargeMultiple
         chargeCoulombs].
    assert (Hrad1 : radiusMicrons st1 = radius).
    { rewrite Hst. cbn [radiusMicrons setRadius]. apply clamp_inside. lra. }
    destruct (setChargeMultiple_IZR n d) as [Hm Hq].
    assert (Hclamp : Z.min (Z.max n (-25)) 25 = n) by lia.
    rewrite Hclamp in Hm, Hq.
    split; [reflexivity |]. split; [reflexivity |]. split; [reflexivity |].
    split; [lra |]. split; [rewrite C1; reflexivity |].
    split; [rewrite C2; apply recomputed_mass_pos |].
    split; [intros Hmu; rewrite C4; apply recomputed_drag_pos;
            [lra | rewrite Hst; exact Hmu] |].
    split; [| intros Hf; discriminate]. intros _.
    split; [lra |]. split; [rewrite Hst; cbn; lra |].
    split; [lra |]. rewrite Q1, Q2, Hm, Hq. split; [exact Hn | reflexivity].
  - (* the same drop again *)
    pose proof (setRadiusMicrons_spec (radiusMicrons st) false st d)
      as (Hst & Hr & (C1 & C2 & C3 & C4) & Hq & Hy & Hv).
    destruct (setRadiusMicrons (radiusMicrons st) false st d) as [st1 d1].
    cbn [fst snd] in *.
    cbn [y velocity setY setVelocity radiusMeters mass dragCoeff
         chargeMultiple chargeCoulombs].
    split; [reflexivity |]. split; [reflexivity |]. split; [reflexivity |].
    split; [exact Hr |]. split; [rewrite C1; reflexivity |].
    split; [rewrite C2; apply recomputed_mass_pos |].
    split; [intros Hmu; rewrite C4; apply recomputed_drag_pos;
            [lra | rewrite Hst; exact Hmu] |].
    split; [intros Hf; discriminate |]. intros _.
    rewrite Hst. split; [reflexivity | split; [reflexivity | exact Hq]].
Qed.

Lemma resetDrop_valid_half :
  (forall i : nat, 0 <= 1 / 2 < 1) /\
  0.4 <= radiusMicrons
           (fst (fst (resetDrop true (fun _ => 1 / 2) state0 dropBoot [])))
      <= 1.3.
Proof.
  assert (H : forall i : nat, 0 <= 1 / 2 < 1) by (intros; lra).
  split; [exact H |].
  destruct (resetDrop_valid true (fun _ => 1 / 2) state0 dropBoot [] H)
    as (_ & _ & _ & _ & _ & _ & _ & Hrand & _).
  destruct (Hrand eq_refl) as (Hr & _). exact Hr.
Defined.

(** ** Trail *)

(** The fading loop as a filter over the faded points. *)
Lemma fade_loop (fade : R) (trail : list TrailPoint) :
  fold_right
    (fun p kept =>
       if Rle_dec (alpha (fadePoint fade p)) 0.02
       then kept else fadePoint fade p :: kept)
    [] trail
  = filter (fun p => if Rle_dec (alpha p) 0.02 then false else true)
           (map (fadePoint fade) trail).
Proof.
  induction trail as [| p trail IH]; [reflexivity |].
  cbn [fold_right map filter]. rewrite IH.
  destruct (Rle_dec (alpha (fadePoint fade p)) 0.02); reflexivity.
Qed.

Lemma fadePoint_alpha (fade : R) (p : TrailPoint) :
  0 <= fade -> alpha p <= 1 ->
  alpha (fadePoint fade p) <= 1 /\
  (alpha p <> 0 -> alpha (fadePoint fade p) <= Rmax 0 (alpha p)).
Proof.
  intros Hf Ha. unfold fadePoint. cbn [alpha].
  destruct (Req_dec_T (alpha p) 0) as [Hz | Hz].
  - split; [apply Rmax_lub; lra | contradiction].
  - split; [apply Rmax_lub; lra |]. intros _.
    apply Rle_max_compat_l. lra.
Qed.

Lemma pushed_length (p : TrailPoint) (trail : list TrailPoint) :
  (length trail <= 140)%nat ->
  (length (if (140 <? length (trail ++ [p]))%nat
           then tl (trail ++ [p]) else trail ++ [p]) <= 140)%nat.
Proof.
  intros H. destruct (Nat.ltb_spec 140 (length (trail ++ [p]))) as [Hl | Hl].
  - rewrite length_app in Hl. cbn in Hl.
    destruct trail as [| q trail]; cbn in *; [lia |].
    rewrite length_app. cbn. lia.
  - exact Hl.
Qed.

(** X16. [advanceTrail] keeps the trail at 140 points or fewer, leaves only
    points whose [alpha] is above 0.02, and keeps every [alpha] at 1 or
    below when it was so before.  Every point it leaves is at the height of
    a point of the old trail or at the height of the drop, and there are
    never more points than before plus the one appended.  With the trail
    switched off the trail is emptied. *)
Theorem advanceTrail_bounded (showTrail : bool) (dropY dt : R)
    (appendSample : bool) (trail : list TrailPoint) :
  (length trail <= 140)%nat ->
  let trail' := advanceTrail showTrail dropY dt appendSample trail in
  (length trail' <= 140)%nat /\
  (length trail' <= length trail + (if appendSample then 1 else 0))%nat /\
  Forall (fun p => 0.02 < alpha p) trail' /\
  (Forall (fun p => alpha p <= 1) trail ->
   Forall (fun p => alpha p <= 1) trail') /\
  Forall (fun p => trail_y p = dropY \/
                   exists q, In q trail /\ trail_y q = trail_y p) trail' /\
  (showTrail = false -> trail' = []).
Proof.
  intros Hlen trail'. subst trail'. unfold advanceTrail.
  destruct showTrail; cbn [negb].
  2: { cbn. repeat split; auto; lia. }
  cbv zeta. rewrite fade_loop.
  set (fade := clamp dt 0 0.05 * 0.9).
  assert (Hfade : 0 <= fade).
  { subst fade. pose proof (clamp_in dt 0 0.05). lra. }
  set (pushed := if appendSample
                 then (if (140 <? length (trail ++ [mkTrailPoint dropY 1]))%nat
                       then tl (trail ++ [mkTrailPoint dropY 1])
                       else trail ++ [mkTrailPoint dropY 1])
                 else trail).
  assert (Hpl : (length pushed <= 140)%nat).
  { subst pushed. destruct appendSample; [now apply pushed_length | exact Hlen]. }
  assert (Hpl' : (length pushed
                  <= length trail + (if appendSample then 1 else 0))%nat).
  { subst pushed. destruct appendSample; [| lia].
    destruct (140 <? length (trail ++ [mkTrailPoint dropY 1]))%nat.
    - destruct trail as [| q trail]; cbn; [lia |].
      rewrite length_app. cbn. lia.
    - rewrite length_app. cbn. lia. }
  assert (Hsub : forall p, In p pushed ->
                           p = mkTrailPoint dropY 1 \/ In p trail).
  { intros p Hin. subst pushed. destruct appendSample; [| now right].
    assert (Hin' : In p (trail ++ [mkTrailPoint dropY 1])).
    { destruct (140 <? length (trail ++ [mkTrailPoint dropY 1]))%nat;
        [| exact Hin].
      destruct (trail ++ [mkTrailPoint dropY 1]); [exact Hin | now right]. }
    apply in_app_or in Hin'. destruct Hin' as [H | [H | []]]; auto. }
  pose proof (filter_length_le
                (fun p => if Rle_dec (alpha p) 0.02 then false else true)
                (map (fadePoint fade) pushed)) as Hfl.
  rewrite length_map in Hfl.
  split; [lia | split; [lia |]].
  split; [| split; [| split; [| discriminate]]].
  - apply Forall_forall. intros p Hin. apply filter_In in Hin.
    destruct Hin as [_ Hk]. destruct (Rle_dec (alpha p) 0.02); [discriminate | lra].
  - intros Hall. apply Forall_forall. intros p Hin. apply filter_In in Hin.
    destruct Hin as [Hin _]. apply in_map_iff in Hin.
    destruct Hin as (q & <- & Hq). apply fadePoint_alpha; [exact Hfade |].
    destruct (Hsub q Hq) as [-> | Hq']; [cbn; lra |].
    rewrite Forall_forall in Hall. now apply Hall.
  - apply Forall_forall. intros p Hin. apply filter_In in Hin.
    destruct Hin as [Hin _]. apply in_map_iff in Hin.
    destruct Hin as (q & <- & Hq). cbn [trail_y fadePoint].
    destruct (Hsub q Hq) as [-> | Hq']; [left; reflexivity |].
    right. exists q. split; [exact Hq' | reflexivity].
Qed.

Lemma advanceTrail_bounded_first :
  (length (@nil TrailPoint) <= 140)%nat /\
  (length (advanceTrail true 0.001 (1 / 60) true []) <= 140)%nat.
Proof.
  assert (H : (length (@nil TrailPoint) <= 140)%nat) by (cbn; lia).
  split; [exact H |].
  apply (advanceTrail_bounded true 0.001 (1 / 60) true [] H).
Defined.

(** ** History *)

Lemma ascending_snoc (ts : list R) (t : R) :
  ascending ts -> Forall (fun u => u <= t) ts -> ascending (ts ++ [t]).
Proof.
  induction ts as [| u ts IH]; intros Hasc Hle; cbn; [auto |].
  destruct Hasc as [Hu Hrest]. inversion Hle as [| ? ? Hut Hts]; subst.
  split; [| now apply IH].
  apply Forall_app. split; [exact Hu | constructor; [exact Hut | constructor]].
Qed.

Lemma shiftOlder_recent (cutoff : R) (samples : list HistorySample) :
  ascending (map sample_t samples) ->
  Forall (fun s => cutoff <= sample_t s) (shiftOlder cutoff samples) /\
  ascending (map sample_t (shiftOlder cutoff samples)).
Proof.
  induction samples as [| s samples IH]; intros Hasc; cbn [shiftOlder].
  - split; [constructor | exact I].
  - cbn [map ascending] in Hasc. destruct Hasc as [Hs Hrest].
    destruct (Rlt_dec (sample_t s) cutoff) as [Hold | Hnew]; [now apply IH |].
    split; [| cbn [map ascending]; split; assumption].
    constructor; [lra |].
    rewrite Forall_map in Hs. eapply Forall_impl; [| exact Hs].
    cbn. intros a Ha. lra.
Qed.

Lemma shiftOlder_keeps (cutoff : R) (samples : list HistorySample) :
  Forall (fun s => In s samples) (shiftOlder cutoff samples).
Proof.
  induction samples as [| s samples IH]; cbn [shiftOlder]; [constructor |].
  destruct (Rlt_dec (sample_t s) cutoff).
  - eapply Forall_impl; [| exact IH]. cbn. intros a Ha. now right.
  - apply Forall_forall. intros a Ha. exact Ha.
Qed.

Lemma shiftOlder_last (cutoff : R) (samples : list HistorySample)
    (s : HistorySample) :
  cutoff <= sample_t s ->
  exists front, shiftOlder cutoff (samples ++ [s]) = front ++ [s].
Proof.
  intros Hs. induction samples as [| q samples IH]; cbn [app shiftOlder].
  - destruct (Rlt_dec (sample_t s) cutoff); [lra |]. now exists [].
  - destruct (Rlt_dec (sample_t q) cutoff); [exact IH |].
    now exists (q :: samples).
Qed.

(** X17. With a clock that never goes back, a sample taken by
    [captureHistorySample] leaves a history in time order that holds only
    samples of the last 20 seconds and ends with the new sample, whose height
    is the drop's share of the gap cut to the range from 0 to 1; samples are
    only removed, never changed, and the accumulator is back at 0.  A call
    that is not forced and comes before 1/45 s have accumulated only adds to
    the accumulator, and without a history canvas nothing changes. *)
Theorem captureHistorySample_window (hasCtx : bool) (now dt electricField : R)
    (force : bool) (st : State) (d : Drop) (accumulator : R)
    (samples : list HistorySample) :
  ascending (map sample_t samples) ->
  Forall (fun s => sample_t s <= now) samples ->
  let r := captureHistorySample hasCtx now dt electricField force st d
                                accumulator samples in
  (hasCtx = false -> r = (accumulator, samples)) /\
  (hasCtx = true -> force = false ->
   accumulator + dt < HISTORY_SAMPLE_INTERVAL ->
   r = (accumulator + dt, samples)) /\
  (hasCtx = true ->
   force = true \/ HISTORY_SAMPLE_INTERVAL <= accumulator + dt ->
   fst r = 0 /\
   ascending (map sample_t (snd r)) /\
   Forall (fun s => now - 20 <= sample_t s <= now) (snd r) /\
   (exists front h,
      snd r = front ++ [mkHistorySample now h (velocity d) electricField] /\
      0 <= h <= 1 /\
      (0 < plateGapMeters st -> 0 <= y d <= plateGapMeters st ->
       h = y d / plateGapMeters st)) /\
   Forall (fun s => In s samples \/ sample_t s = now) (snd r)).
Proof.
  intros Hasc Hle r. subst r. unfold captureHistorySample.
  destruct hasCtx; cbn [negb].
  2: { split; [reflexivity | split; intros; discriminate]. }
  split; [intros; discriminate |]. cbv zeta.
  split.
  - intros _ -> Hlt. cbn [negb andb].
    destruct (Rlt_dec (accumulator + dt) HISTORY_SAMPLE_INTERVAL); [reflexivity | lra].
  - intros _ Hdo.
    assert (Hgo : negb force
                  && (if Rlt_dec (accumulator + dt) HISTORY_SAMPLE_INTERVAL
                      then true else false) = false).
    { destruct Hdo as [-> | Hge]; [reflexivity |].
      destruct (Rlt_dec (accumulator + dt) HISTORY_SAMPLE_INTERVAL); [lra |].
      apply andb_false_r. }
    rewrite Hgo. cbn [fst snd]. unfold HISTORY_WINDOW_SECONDS.
    set (h := if Rlt_dec 0 (plateGapMeters st)
              then clamp (y d / plateGapMeters st) 0 1 else 0).
    set (new := mkHistorySample now h (velocity d) electricField).
    assert (Hasc' : ascending (map sample_t (samples ++ [new]))).
    { rewrite map_app. cbn [map sample_t new]. apply ascending_snoc; [exact Hasc |].
      rewrite Forall_map. exact Hle. }
    destruct (shiftOlder_recent (now - 20) (samples ++ [new]) Hasc')
      as [Hrecent Hsorted].
    pose proof (shiftOlder_keeps (now - 20) (samples ++ [new])) as Hkeeps.
    assert (Hfrom : Forall (fun s => In s samples \/ sample_t s = now)
                           (shiftOlder (now - 20) (samples ++ [new]))).
    { eapply Forall_impl; [| exact Hkeeps]. cbn. intros a Ha.
      apply in_app_or in Ha. destruct Ha as [Ha | [<- | []]]; auto. }
    split; [reflexivity |]. split; [exact Hsorted |].
    split; [| split; [| exact Hfrom]].
    + rewrite Forall_forall in *. intros a Ha. split; [now apply Hrecent |].
      destruct (Hfrom a Ha) as [Hin | ->]; [now apply Hle | lra].
    + destruct (shiftOlder_last (now - 20) samples new) as [front Hfront];
        [cbn; lra |].
      exists front, h. split; [exact Hfront |].
      subst h. destruct (Rlt_dec 0 (plateGapMeters st)) as [Hg | Hg].
      * split; [apply clamp_in; lra |]. intros _ Hy. apply clamp_inside.
        split; [apply le_div_of_mul_le | apply div_le_of_le_mul]; lra.
      * split; [lra | intros; lra].
Qed.

Lemma captureHistorySample_window_first :
  ascending (map sample_t []) /\
  fst (captureHistorySample true 5 0 400000 true state0 dropBoot 0 []) = 0.
Proof.
  assert (H1 : ascending (map sample_t [])) by exact I.
  split; [exact H1 |].
  destruct (captureHistorySample_window true 5 0 400000 true state0 dropBoot 0
              [] H1 (Forall_nil _)) as (_ & _ & Hdo).
  destruct (Hdo eq_refl (or_introl eq_refl)) as (Hacc & _). exact Hacc.
Defined.

(** ** Readouts *)

(** X18. For a charged drop the balance field that [updateReadouts] shows is
    the field at which the electric force equals the gravity force: applied
    as it is shown, it doubles the deterministic force; applied with the
    opposite sign, it cancels it, and the analytic terminal velocity of the
    step is then 0.  A drop without charge gets no balance field.  The
    terminal velocity shown for a drop with a positive drag coefficient is
    the analytic terminal velocity of the step without field. *)
Theorem readoutBalanceField_sign (st : State) (d : Drop) :
  (0 < dragCoeff d -> readoutTerminalVelocity st d = vtAnalytic 0 st d) /\
  (chargeCoulombs d = 0 -> readoutBalanceField st d = None) /\
  (forall b, readoutBalanceField st d = Some b ->
     electricForce b d = gravityForce st d /\
     gravityForce st d + electricForce b d = 2 * gravityForce st d /\
     gravityForce st d + electricForce (- b) d = 0 /\
     vtAnalytic (- b) st d = 0).
Proof.
  split.
  { intros Hc. unfold readoutTerminalVelocity, vtAnalytic; cbv zeta.
    rewrite (refreshed_valid st d Hc). unfold gravityForce, electricForce.
    destruct (Rlt_dec 0 (dragCoeff d)); [| lra]. f_equal. ring. }
  unfold readoutBalanceField; cbv zeta.
  destruct (Req_dec_T (chargeCoulombs d) 0) as [Hz | Hnz].
  - split; [reflexivity | intros b Hb; discriminate].
  - split; [intros Hq; contradiction |]. intros b Hb. injection Hb as <-.
    assert (He : electricForce (mass d * gravity st / chargeCoulombs d) d
                 = gravityForce st d).
    { unfold electricForce, gravityForce. field. exact Hnz. }
    assert (Hn : electricForce (- (mass d * gravity st / chargeCoulombs d)) d
                 = - gravityForce st d).
    { unfold electricForce, gravityForce. field. exact Hnz. }
    split; [exact He |]. split; [rewrite He; ring |].
    split; [rewrite Hn; ring |].
    unfold vtAnalytic. rewrite Hn.
    destruct (Rlt_dec 0 (dragCoeff (refreshed st d))); [| reflexivity].
    unfold Rdiv. ring.
Qed.
